(** * Spatial pressure field of the sole: [backend/core/pressure_field.py]

    A shallow embedding of the five-stage pipeline of
    [generate_pressure_field] and the properties its specification states.

    Conventions of the embedding.
    - In the first model a Python [float] (and a cell of a float64 array)
      is a real number of [R]: it gives the values the code computes up to
      rounding, and has no infinities and no not-a-number.
    - Where rounding decides what the code does (an index window, a number
      of passes, an exception of [int()]) the computation is modelled in
      binary64, on the [spec_float] of the Standard Library with its
      correctly rounded operations; names of that layer end in [_b64] when
      only the control is in binary64 and the cells stay real, and in [_f64]
      when the cells are binary64 values too.
    - A Python [int] is a [Z]; loop indices produced by [range] are [nat].
    - A one-dimensional array is a [list R]; a two-dimensional array is a
      list of rows, all of the same length ([rect]).
    - A raised exception is the [Raise] branch of [outcome].
    - [GRID_ROWS] and [GRID_COLS] come from [core.constants], which is not
      part of the sources at hand; they are parameters of the model. *)

From Stdlib Require Import Reals Lra Lia ZArith SpecFloat.
From stdpp Require Import gmap strings list.

Local Open Scope R_scope.

(** ** Python values and exceptions *)

Inductive exn : Type :=
| ValueError
| OverflowError
| KeyError (key : string).

Inductive outcome (A : Type) : Type :=
| Ok (a : A)
| Raise (e : exn).

Arguments Ok {A} a.
Arguments Raise {A} e.

#[global] Instance outcome_ret : MRet outcome := fun A a => Ok a.

#[global] Instance outcome_bind : MBind outcome := fun A B k m =>
  match m with
  | Ok a => k a
  | Raise e => Raise e
  end.

(** [int(x)] on a float: truncation toward zero. *)
Definition py_int (x : R) : Z :=
  if Rle_dec 0 x then Zfloor x else Zceil x.

(** [range(n)]: empty when [n] is not positive. *)
Definition py_range (n : Z) : list nat := seq 0 (Z.to_nat n).

(** [sum(l)]: a left fold that starts from 0. *)
Definition py_sum (l : list R) : R := fold_left Rplus l 0.

(** [max(a, b)]: [b] only when it is strictly greater than [a]. *)
Definition py_max (a b : R) : R := if Rlt_dec a b then b else a.

(** [d[k]] on a dictionary. *)
Definition getitem (d : gmap string R) (k : string) : outcome R :=
  match d !! k with
  | Some v => Ok v
  | None => Raise (KeyError k)
  end.

(** Bound of a slice [a[lo:hi]] on a sequence of length [len]: a negative
    bound counts from the end, and the result is clipped to [0, len]. *)
Definition slice_bound (len k : Z) : nat :=
  Z.to_nat (if (k <? 0)%Z then Z.max (k + len) 0 else Z.min k len).

(** [a[lo:hi] += d] on a one-dimensional array. *)
Definition slice_iadd (lo hi : Z) (d : R) (a : list R) : list R :=
  let len := Z.of_nat (length a) in
  let s := slice_bound len lo in
  let e := slice_bound len hi in
  take s a ++ ((fun v => v + d) <$> take (e - s) (drop s a)) ++ drop (s + (e - s)) a.

(** ** The parts of NumPy the module calls *)

(** [np.linspace(start, stop, num)] with the default [endpoint=True]: a
    negative [num] is refused; the step is [delta / (num - 1)] when that
    divisor is positive; the last sample is overwritten with [stop]. *)
Definition linspace (start stop : R) (num : Z) : outcome (list R) :=
  if (num <? 0)%Z then Raise ValueError
  else
    let div := (num - 1)%Z in
    let delta := stop - start in
    let y := INR <$> seq 0 (Z.to_nat num) in
    let y :=
      if (0 <? div)%Z then
        let step := delta / IZR div in
        if Req_dec_T step 0
        then (fun v => v / IZR div * delta) <$> y
        else (fun v => v * step) <$> y
      else (fun v => v * delta) <$> y in
    let y := (fun v => v + start) <$> y in
    Ok (if (1 <? num)%Z then <[Z.to_nat (num - 1) := stop]> y else y).

(** [np.power(x, e)] on reals. [None] stands for a result that is not a
    real number: a negative base with a non-integer exponent (nan), or
    zero raised to a negative exponent (inf). *)
Definition np_power (x e : R) : option R :=
  if Rlt_dec 0 x then Some (Rpower x e)
  else if Req_dec_T x 0 then
    if Rlt_dec 0 e then Some 0
    else if Req_dec_T e 0 then Some 1 else None
  else
    if Req_dec_T e (IZR (Zfloor e)) then Some (powerRZ x (Zfloor e)) else None.

(** ** Two-dimensional arrays *)

Abbreviation grid := (list (list R)).

(** All rows have [cols] cells. *)
Definition rect (cols : nat) (g : grid) : Prop :=
  Forall (fun row => length row = cols) g.

(** [g.shape] *)
Definition shape (g : grid) : nat * nat :=
  (length g, from_option length 0%nat (head g)).

(** [g[i, j]] (read); the loops below only read inside the shape. *)
Definition cell (g : grid) (i j : nat) : R :=
  default 0 (g !! i ≫= lookup j).

(** [g[i, j] = v] (write) *)
Definition set_cell (g : grid) (i j : nat) (v : R) : grid :=
  alter (<[j := v]>) i g.

(** The cells of [g], row by row. *)
Definition cells (g : grid) : list R := concat g.

Definition grid_min (g : grid) : R :=
  match cells g with
  | [] => 0
  | c :: cs => fold_left Rmin cs c
  end.

Definition grid_max (g : grid) : R :=
  match cells g with
  | [] => 0
  | c :: cs => fold_left Rmax cs c
  end.

(** ** The pipeline *)

Section Pipeline.

(** [from core.constants import GRID_ROWS, GRID_COLS] *)
Variables GRID_ROWS GRID_COLS : Z.

(** Heel-to-toe base pressure profile: [1.2 - np.linspace(0, 1, GRID_ROWS)]. *)
Definition _base_longitudinal_profile : outcome (list R) :=
  x ← linspace 0 1 GRID_ROWS;
  Ok ((fun v => 1.2 - v) <$> (x : list R)).

(** Redistribute pressure in the midfoot region:
    [profile[mid_start:mid_end] += arch_bias], then [return profile]. *)
Definition _apply_arch_bias (profile : list R) (arch_bias : R) : list R :=
  let mid_start := py_int (0.35 * IZR GRID_ROWS) in
  let mid_end := py_int (0.65 * IZR GRID_ROWS) in
  slice_iadd mid_start mid_end arch_bias profile.

(** Expand the 1D profile across the foot width:
    [np.tile(p.reshape(-1, 1), (1, GRID_COLS))]. Every row repeats its
    value [GRID_COLS] times; a negative repetition count is refused. *)
Definition _expand_to_grid (longitudinal_profile : list R) : outcome grid :=
  if (GRID_COLS <? 0)%Z then Raise ValueError
  else Ok ((fun v => replicate (Z.to_nat GRID_COLS) v) <$> longitudinal_profile).

(** The local [exponent] of [_apply_contact_capacity]. *)
Definition capacity_exponent (capacity : R) : R :=
  py_max 0.5 (1.5 - capacity).

(** [np.power(grid, exponent)], cell by cell. [None]: some cell of the
    result is not a real number. *)
Definition _apply_contact_capacity (g : grid) (capacity : R) : option grid :=
  let exponent := capacity_exponent capacity in
  mapM (mapM (fun c => np_power c exponent)) g.

End Pipeline.

(** The list [neighbors] built for cell [(i, j)], read from [g]. The
    loops call it with [i < rows] and [j < cols], where [rows - 1] and
    [cols - 1] are the same in [nat] and in Python. *)
Definition neighbors (g : grid) (rows cols i j : nat) : list R :=
  [cell g i j]
  ++ (if decide (0 < i)%nat then [cell g (i - 1) j] else [])
  ++ (if decide (i < rows - 1)%nat then [cell g (i + 1) j] else [])
  ++ (if decide (0 < j)%nat then [cell g i (j - 1)] else [])
  ++ (if decide (j < cols - 1)%nat then [cell g i (j + 1)] else []).

(** [sum(neighbors) / len(neighbors)] *)
Definition mean (l : list R) : R := py_sum l / INR (length l).

(** The body of [for j in range(cols)] for a fixed [i]: it reads [g] and
    writes [new_grid]. *)
Definition smooth_row (g : grid) (rows cols i : nat) (new_grid : grid) : grid :=
  fold_left (fun ng j => set_cell ng i j (mean (neighbors g rows cols i j)))
            (seq 0 cols) new_grid.

(** One iteration of [for _ in range(steps)]: [new_grid] starts as a copy
    of [g] and is returned after both loops. [rows] and [cols] are those
    read from the shape before the first iteration. *)
Definition smooth_pass (rows cols : nat) (g : grid) : grid :=
  fold_left (fun ng i => smooth_row g rows cols i ng) (seq 0 rows) g.

(** The local [steps] of [_smooth_grid_bounded]. *)
Definition smooth_steps (stiffness_factor : R) (iterations : Z) : Z :=
  py_int ((1.0 - stiffness_factor) * IZR iterations).

(** Bounded smoothing with zero-flux edges. *)
Definition _smooth_grid_bounded (g : grid) (stiffness_factor : R) (iterations : Z) : grid :=
  let steps := smooth_steps stiffness_factor iterations in
  let '(rows, cols) := shape g in
  fold_left (fun g _ => smooth_pass rows cols g) (py_range steps) g.

(** The default value of the parameter [iterations]. *)
Definition default_iterations : Z := 3.

Section Generate.

Variables GRID_ROWS GRID_COLS : Z.

(** Generate the initial pressure field: the five stages in order, each
    parameter looked up just before the stage that uses it.
    The result is [Ok (Some g)] for a real-valued grid [g], [Ok None]
    when the call returns a grid with a cell that is not a real number,
    and [Raise e] when the call raises. *)
Definition generate_pressure_field (params : gmap string R) : outcome (option grid) :=
  profile ← _base_longitudinal_profile GRID_ROWS;
  arch_bias ← getitem params "arch_bias";
  let profile := _apply_arch_bias GRID_ROWS profile arch_bias in
  g ← _expand_to_grid GRID_COLS profile;
  capacity ← getitem params "contact_capacity";
  let g := _apply_contact_capacity g capacity in
  stiffness ← getitem params "stiffness_factor";
  mret ((fun g => _smooth_grid_bounded g stiffness default_iterations) <$> g).

(** Stages 1 to 4 alone: the same calls without the smoother. *)
Definition stages_1_to_4 (params : gmap string R) : outcome (option grid) :=
  profile ← _base_longitudinal_profile GRID_ROWS;
  arch_bias ← getitem params "arch_bias";
  let profile := _apply_arch_bias GRID_ROWS profile arch_bias in
  g ← _expand_to_grid GRID_COLS profile;
  capacity ← getitem params "contact_capacity";
  mret (_apply_contact_capacity g capacity).

End Generate.

(** ** Vocabulary of the specification

    The notions below are not in the code; they restate the words of the
    specification so that the theorems can compare the code with them. *)

(** Position of a cell in a [rows] x [cols] grid. *)
Definition is_corner (rows cols i j : nat) : Prop :=
  (i = 0 \/ i = rows - 1)%nat /\ (j = 0 \/ j = cols - 1)%nat.

Definition is_interior (rows cols i j : nat) : Prop :=
  (0 < i < rows - 1)%nat /\ (0 < j < cols - 1)%nat.

Definition on_border (rows cols i j : nat) : Prop :=
  (i = 0 \/ i = rows - 1 \/ j = 0 \/ j = cols - 1)%nat.

(** An edge cell that is not a corner. *)
Definition is_edge (rows cols i j : nat) : Prop :=
  on_border rows cols i j /\ ~ is_corner rows cols i j.

(** Number of values averaged at [(i, j)]: the cell and each orthogonal
    neighbour that lies inside the grid. *)
Definition averaged (rows cols i j : nat) : nat :=
  1 + (if decide (0 < i)%nat then 1 else 0)
    + (if decide (i + 1 < rows)%nat then 1 else 0)
    + (if decide (0 < j)%nat then 1 else 0)
    + (if decide (j + 1 < cols)%nat then 1 else 0).

(** Sum of the cell and of its orthogonal neighbours inside the grid,
    all read from [g]. *)
Definition neighborhood_sum (g : grid) (rows cols i j : nat) : R :=
  cell g i j
  + (if decide (0 < i)%nat then cell g (i - 1) j else 0)
  + (if decide (i + 1 < rows)%nat then cell g (i + 1) j else 0)
  + (if decide (0 < j)%nat then cell g i (j - 1) else 0)
  + (if decide (j + 1 < cols)%nat then cell g i (j + 1) else 0).

(** The real power [x ^ e] of a base that is not negative, for a positive
    exponent: [exp (e * ln x)] for [x > 0], and 0 for [x = 0]. *)
Definition nonneg_power (x e : R) : R :=
  if Req_dec_T x 0 then 0 else Rpower x e.

(** The parameter record of the end-to-end example. *)
Definition example_params : gmap string R :=
  <["arch_bias" := 0.1]>
    (<["contact_capacity" := 0.8]> (<["stiffness_factor" := 1.0]> ∅)).

(** [n] smoothing passes in a row, on the shape of [g]. *)
Definition passes (n : nat) (g : grid) : grid :=
  let '(rows, cols) := shape g in Nat.iter n (smooth_pass rows cols) g.

(** The grid whose cells are [a * c + b] for the cells [c] of [g]: a
    change of unit and origin of the pressure values. *)
Definition affine_grid (a b : R) (g : grid) : grid :=
  (fun row : list R => (fun c => a * c + b) <$> row) <$> g.

(** ** Binary64

    Python floats are IEEE 754 binary64 values: 53 bits of precision,
    round to nearest even. [spec_float] has the two zeros, the two
    infinities, one not-a-number and the finite values [(-1)^s * m * 2^e]. *)

Definition f64_add : spec_float -> spec_float -> spec_float := SFadd 53 1024.
Definition f64_sub : spec_float -> spec_float -> spec_float := SFsub 53 1024.
Definition f64_mul : spec_float -> spec_float -> spec_float := SFmul 53 1024.
Definition f64_div : spec_float -> spec_float -> spec_float := SFdiv 53 1024.
Definition f64_ltb : spec_float -> spec_float -> bool := SFltb.
Definition f64_eqb : spec_float -> spec_float -> bool := SFeqb.

(** The values a Python float can take: canonical mantissa and exponent. *)
Definition f64_valid (x : spec_float) : bool := valid_binary 53 1024 x.

(** The binary64 value nearest to an integer (ties to even); infinite when
    the integer is out of range. *)
Definition f64_of_Z (n : Z) : spec_float := binary_normalize 53 1024 n 0 false.

(** Conversion of a Python [int] to a float, as in [x * n] and [float(n)]:
    it raises [OverflowError] when the integer is too large. *)
Definition float_of_int (n : Z) : outcome spec_float :=
  match f64_of_Z n with
  | S754_infinity _ => Raise OverflowError
  | x => Ok x
  end.

(** The float written as the decimal literal [n / 10^k]: the binary64
    value nearest to that rational (ties to even). *)
Definition f64_decimal (n : Z) (k : nat) : spec_float :=
  match n with
  | Z0 => S754_zero false
  | Zpos m => f64_div (S754_finite false m 0) (S754_finite false (10 ^ Pos.of_nat k) 0)
  | Zneg m => f64_div (S754_finite true m 0) (S754_finite false (10 ^ Pos.of_nat k) 0)
  end.

(** The literals of the module. *)
Definition f64_0 : spec_float := S754_zero false.
Definition f64_1 : spec_float := f64_decimal 10 1.
Definition f64_0_35 : spec_float := f64_decimal 35 2.
Definition f64_0_65 : spec_float := f64_decimal 65 2.
Definition f64_0_5 : spec_float := f64_decimal 5 1.
Definition f64_1_2 : spec_float := f64_decimal 12 1.
Definition f64_1_5 : spec_float := f64_decimal 15 1.

(** [int(x)] on a float: truncation toward zero; [OverflowError] on an
    infinity and [ValueError] on not-a-number. *)
Definition f64_int (x : spec_float) : outcome Z :=
  match x with
  | S754_zero _ => Ok 0%Z
  | S754_finite s m e => Ok (cond_Zopp s (Z.shiftl (Zpos m) e))
  | S754_infinity _ => Raise OverflowError
  | S754_nan => Raise ValueError
  end.

(** [max(a, b)] on floats: [b] only when [b > a] holds. *)
Definition py_max_f64 (a b : spec_float) : spec_float :=
  if f64_ltb a b then b else a.

(** [sum(l)] on floats: a left fold of float additions that starts from 0. *)
Definition py_sum_f64 (l : list spec_float) : spec_float :=
  fold_left f64_add l f64_0.

(** [d[k]] on a dictionary of floats. *)
Definition getitem_f64 (d : gmap string spec_float) (k : string) : outcome spec_float :=
  match d !! k with
  | Some v => Ok v
  | None => Raise (KeyError k)
  end.

(** [a[lo:hi] += d] on a one-dimensional float64 array. *)
Definition slice_iadd_f64 (lo hi : Z) (d : spec_float) (a : list spec_float)
  : list spec_float :=
  let len := Z.of_nat (length a) in
  let s := slice_bound len lo in
  let e := slice_bound len hi in
  take s a ++ ((fun v => f64_add v d) <$> take (e - s) (drop s a)) ++ drop (s + (e - s)) a.

(** [np.linspace(start, stop, num)] on float64: a negative [num] is
    refused, [float(num)] is taken for the result type, the samples are
    [arange(0, num) * step + start] with [step = delta / (num - 1)], and
    the last sample is overwritten with [stop]. *)
Definition linspace_f64 (start stop : spec_float) (num : Z) : outcome (list spec_float) :=
  if (num <? 0)%Z then Raise ValueError
  else
    _ ← float_of_int num;
    let div := (num - 1)%Z in
    let delta := f64_sub stop start in
    let y := (fun i : nat => f64_of_Z (Z.of_nat i)) <$> seq 0 (Z.to_nat num) in
    let y :=
      if (0 <? div)%Z then
        let step := f64_div delta (f64_of_Z div) in
        if f64_eqb step f64_0
        then (fun v => f64_mul (f64_div v (f64_of_Z div)) delta) <$> y
        else (fun v => f64_mul v step) <$> y
      else (fun v => f64_mul v delta) <$> y in
    let y := (fun v => f64_add v start) <$> y in
    Ok (if (1 <? num)%Z then <[Z.to_nat (num - 1) := stop]> y else y).

(** Two-dimensional float64 arrays. *)
Abbreviation grid_f64 := (list (list spec_float)).

Definition shape_f64 (g : grid_f64) : nat * nat :=
  (length g, from_option length 0%nat (head g)).

Definition cell_f64 (g : grid_f64) (i j : nat) : spec_float :=
  default f64_0 (g !! i ≫= lookup j).

Definition set_cell_f64 (g : grid_f64) (i j : nat) (v : spec_float) : grid_f64 :=
  alter (<[j := v]>) i g.

(** ** The pipeline in binary64 *)

(** [mid_start = int(0.35 * GRID_ROWS)] and [mid_end = int(0.65 * GRID_ROWS)]. *)
Definition mid_window_f64 (GRID_ROWS : Z) : outcome (Z * Z) :=
  r ← float_of_int GRID_ROWS;
  mid_start ← f64_int (f64_mul f64_0_35 r);
  r ← float_of_int GRID_ROWS;
  mid_end ← f64_int (f64_mul f64_0_65 r);
  Ok (mid_start, mid_end).

(** The list [neighbors] built for cell [(i, j)], read from [g]. *)
Definition neighbors_f64 (g : grid_f64) (rows cols i j : nat) : list spec_float :=
  [cell_f64 g i j]
  ++ (if decide (0 < i)%nat then [cell_f64 g (i - 1) j] else [])
  ++ (if decide (i < rows - 1)%nat then [cell_f64 g (i + 1) j] else [])
  ++ (if decide (0 < j)%nat then [cell_f64 g i (j - 1)] else [])
  ++ (if decide (j < cols - 1)%nat then [cell_f64 g i (j + 1)] else []).

(** [sum(neighbors) / len(neighbors)] *)
Definition mean_f64 (l : list spec_float) : spec_float :=
  f64_div (py_sum_f64 l) (f64_of_Z (Z.of_nat (length l))).

Definition smooth_row_f64 (g : grid_f64) (rows cols i : nat) (new_grid : grid_f64) : grid_f64 :=
  fold_left (fun ng j => set_cell_f64 ng i j (mean_f64 (neighbors_f64 g rows cols i j)))
            (seq 0 cols) new_grid.

Definition smooth_pass_f64 (rows cols : nat) (g : grid_f64) : grid_f64 :=
  fold_left (fun ng i => smooth_row_f64 g rows cols i ng) (seq 0 rows) g.

(** [steps = int((1.0 - stiffness_factor) * iterations)] *)
Definition smooth_steps_f64 (stiffness_factor : spec_float) (iterations : Z) : outcome Z :=
  it ← float_of_int iterations;
  f64_int (f64_mul (f64_sub f64_1 stiffness_factor) it).

Definition _smooth_grid_bounded_f64 (g : grid_f64) (stiffness_factor : spec_float)
           (iterations : Z) : outcome grid_f64 :=
  steps ← smooth_steps_f64 stiffness_factor iterations;
  let '(rows, cols) := shape_f64 g in
  Ok (fold_left (fun g _ => smooth_pass_f64 rows cols g) (py_range steps) g).

(** ** Arrays as objects

    A NumPy array is an object on the heap: [profile[a:b] += d] and
    [new_grid[i, j] = v] write into the object they name, and every
    other array operation of the module returns a new object. A program
    takes the heap in which it starts and returns the heap it leaves,
    with a reference to its result or the exception it raised. *)

Inductive ndarray : Type :=
| Array1 (a : list spec_float)
| Array2 (g : grid_f64).

(** The objects allocated so far; a reference is an index in that list. *)
Abbreviation heap := (list ndarray).

Definition heap_prog (A : Type) : Type := heap -> heap * outcome A.

#[global] Instance heap_ret : MRet heap_prog := fun A a h => (h, Ok a).

#[global] Instance heap_bind : MBind heap_prog := fun A B k m h =>
  match m h with
  | (h', Ok a) => k a h'
  | (h', Raise e) => (h', Raise e)
  end.

(** A computation that does not touch the heap. *)
Definition pure_step {A : Type} (r : outcome A) : heap_prog A := fun h => (h, r).

(** A new object, behind the objects that exist. *)
Definition alloc (o : ndarray) : heap_prog nat := fun h => (h ++ [o], Ok (length h)).

(** The contents behind a reference. *)
Definition load1 (l : nat) (h : heap) : list spec_float :=
  match h !! l with
  | Some (Array1 a) => a
  | _ => []
  end.

Definition load2 (l : nat) (h : heap) : grid_f64 :=
  match h !! l with
  | Some (Array2 g) => g
  | _ => []
  end.

(** Reading the array behind a reference. *)
Definition get1 (l : nat) : heap_prog (list spec_float) := fun h => (h, Ok (load1 l h)).
Definition get2 (l : nat) : heap_prog grid_f64 := fun h => (h, Ok (load2 l h)).

(** [a[lo:hi] += d]: in place. *)
Definition slice_iadd_heap (a : nat) (lo hi : Z) (d : spec_float) : heap_prog unit :=
  fun h => (<[a := Array1 (slice_iadd_f64 lo hi d (load1 a h))]> h, Ok ()).

(** [a[i, j] = v]: in place. *)
Definition setitem_heap (a : nat) (i j : nat) (v : spec_float) : heap_prog unit :=
  fun h => (<[a := Array2 (set_cell_f64 (load2 a h) i j v)]> h, Ok ()).

(** [for x in l: body], with the variables [s] that the body rebinds. *)
Fixpoint for_each {A S : Type} (l : list A) (body : A -> S -> heap_prog S) (s : S)
  : heap_prog S :=
  match l with
  | [] => mret s
  | x :: l => s ← body x s; for_each l body s
  end.

(** One iteration of [for _ in range(steps)]: [new_grid = grid.copy()],
    the two loops that read [grid] and write [new_grid], and the new
    binding of [grid]. *)
Definition smooth_pass_heap (rows cols : nat) (grid : nat) : heap_prog nat :=
  g ← get2 grid;
  new_grid ← alloc (Array2 g);
  _ ← for_each (seq 0 rows) (fun i _ =>
         for_each (seq 0 cols) (fun j _ =>
           g ← get2 grid;
           setitem_heap new_grid i j (mean_f64 (neighbors_f64 g rows cols i j))) ()) ();
  mret new_grid.

Definition _smooth_grid_bounded_heap (grid : nat) (stiffness_factor : spec_float)
           (iterations : Z) : heap_prog nat :=
  steps ← pure_step (smooth_steps_f64 stiffness_factor iterations);
  g ← get2 grid;
  let shape := shape_f64 g in
  for_each (py_range steps) (fun _ grid => smooth_pass_heap shape.1 shape.2 grid) grid.

(** What the caller of a program gets: the contents of the returned
    array, or the exception. *)
Definition result_of (r : heap * outcome nat) : outcome grid_f64 :=
  match r.2 with
  | Ok l => Ok (load2 l r.1)
  | Raise e => Raise e
  end.

Section PipelineF64.

(** [np.power] on two float64 scalars is the power function of the C
    library, which IEEE 754 does not fix to the last bit: it is a
    parameter of the model. *)
Variable np_power_f64 : spec_float -> spec_float -> spec_float.

Variables GRID_ROWS GRID_COLS : Z.

Definition _base_longitudinal_profile_f64 : outcome (list spec_float) :=
  x ← linspace_f64 f64_0 f64_1 GRID_ROWS;
  Ok ((fun v => f64_sub f64_1_2 v) <$> (x : list spec_float)).

Definition _apply_arch_bias_f64 (profile : list spec_float) (arch_bias : spec_float)
  : outcome (list spec_float) :=
  w ← mid_window_f64 GRID_ROWS;
  Ok (slice_iadd_f64 w.1 w.2 arch_bias profile).

Definition _expand_to_grid_f64 (longitudinal_profile : list spec_float) : outcome grid_f64 :=
  if (GRID_COLS <? 0)%Z then Raise ValueError
  else Ok ((fun v => replicate (Z.to_nat GRID_COLS) v) <$> longitudinal_profile).

Definition capacity_exponent_f64 (capacity : spec_float) : spec_float :=
  py_max_f64 f64_0_5 (f64_sub f64_1_5 capacity).

Definition _apply_contact_capacity_f64 (g : grid_f64) (capacity : spec_float) : grid_f64 :=
  let exponent := capacity_exponent_f64 capacity in
  (fun row : list spec_float => (fun c => np_power_f64 c exponent) <$> row) <$> g.

Definition generate_pressure_field_f64 (params : gmap string spec_float) : outcome grid_f64 :=
  profile ← _base_longitudinal_profile_f64;
  arch_bias ← getitem_f64 params "arch_bias";
  profile ← _apply_arch_bias_f64 profile arch_bias;
  g ← _expand_to_grid_f64 profile;
  capacity ← getitem_f64 params "contact_capacity";
  let g := _apply_contact_capacity_f64 g capacity in
  stiffness ← getitem_f64 params "stiffness_factor";
  _smooth_grid_bounded_f64 g stiffness default_iterations.

(** Stages 1 to 4 alone: the same calls without the smoother. *)
Definition stages_1_to_4_f64 (params : gmap string spec_float) : outcome grid_f64 :=
  profile ← _base_longitudinal_profile_f64;
  arch_bias ← getitem_f64 params "arch_bias";
  profile ← _apply_arch_bias_f64 profile arch_bias;
  g ← _expand_to_grid_f64 profile;
  capacity ← getitem_f64 params "contact_capacity";
  Ok (_apply_contact_capacity_f64 g capacity).

(** The same functions on references. *)
Definition _base_longitudinal_profile_heap : heap_prog nat :=
  x ← pure_step (linspace_f64 f64_0 f64_1 GRID_ROWS);
  x ← alloc (Array1 x);
  x ← get1 x;
  alloc (Array1 ((fun v => f64_sub f64_1_2 v) <$> (x : list spec_float))).

Definition _apply_arch_bias_heap (profile : nat) (arch_bias : spec_float) : heap_prog nat :=
  w ← pure_step (mid_window_f64 GRID_ROWS);
  _ ← slice_iadd_heap profile w.1 w.2 arch_bias;
  mret profile.

Definition _expand_to_grid_heap (longitudinal_profile : nat) : heap_prog nat :=
  p ← get1 longitudinal_profile;
  g ← pure_step (_expand_to_grid_f64 p);
  alloc (Array2 g).

Definition _apply_contact_capacity_heap (g : nat) (capacity : spec_float) : heap_prog nat :=
  g ← get2 g;
  alloc (Array2 (_apply_contact_capacity_f64 g capacity)).

Definition generate_pressure_field_heap (params : gmap string spec_float) : heap_prog nat :=
  profile ← _base_longitudinal_profile_heap;
  arch_bias ← pure_step (getitem_f64 params "arch_bias");
  profile ← _apply_arch_bias_heap profile arch_bias;
  g ← _expand_to_grid_heap profile;
  capacity ← pure_step (getitem_f64 params "contact_capacity");
  g ← _apply_contact_capacity_heap g capacity;
  stiffness ← pure_step (getitem_f64 params "stiffness_factor");
  _smooth_grid_bounded_heap g stiffness default_iterations.

End PipelineF64.

(** [n] smoothing passes in a row on float64 cells, on the shape of [g]. *)
Definition passes_f64 (n : nat) (g : grid_f64) : grid_f64 :=
  let '(rows, cols) := shape_f64 g in Nat.iter n (smooth_pass_f64 rows cols) g.

(** The floor of a finite float, for the wording of the specification. *)
Definition f64_floor (x : spec_float) : Z :=
  match x with
  | S754_finite s m e => Z.shiftl (cond_Zopp s (Zpos m)) e
  | _ => 0%Z
  end.

(** The parameter record of the end-to-end example, in floats. *)
Definition example_params_f64 : gmap string spec_float :=
  <["arch_bias" := f64_decimal 1 1]>
    (<["contact_capacity" := f64_decimal 8 1]> (<["stiffness_factor" := f64_1]> ∅)).

(** The profile and the grid of the end-to-end example, 10 rows by 4
    columns: the decimals are those Python prints for the entries. *)
Definition example_profile : list spec_float :=
  [ f64_decimal 12 1;
    f64_decimal 10888888888888888 16;
    f64_decimal 9777777777777777 16;
    f64_decimal 9666666666666667 16;
    f64_decimal 8555555555555555 16;
    f64_decimal 7444444444444444 16;
    f64_decimal 5333333333333333 16;
    f64_decimal 4222222222222223 16;
    f64_decimal 3111111111111111 16;
    f64_decimal 19999999999999996 17 ].

Definition example_grid (np_power_f64 : spec_float -> spec_float -> spec_float) : grid_f64 :=
  (fun v => replicate 4 (np_power_f64 v (f64_decimal 7 1))) <$> example_profile.

(** The window of [rows] rows ends at [floor(65 * rows / 100)] and starts
    at [floor(35 * rows / 100)] or one index before it. *)
Definition window_ok (rows : Z) : bool :=
  match mid_window_f64 rows with
  | Ok (mid_start, mid_end) =>
      (mid_end =? 65 * rows / 100)%Z
      && ((mid_start =? 35 * rows / 100)%Z || (mid_start =? 35 * rows / 100 - 1)%Z)
  | Raise _ => false
  end.

(** [window_ok] for the [n] row counts from [rows] on. *)
Fixpoint window_ok_upto (n : nat) (rows : Z) : bool :=
  match n with
  | O => true
  | S n => window_ok rows && window_ok_upto n (rows + 1)
  end.

(** A float of sign [s] that is not not-a-number. *)
Definition f64_signed (s : bool) (x : spec_float) : Prop :=
  match x with
  | S754_zero s' | S754_infinity s' | S754_finite s' _ _ => s' = s
  | S754_nan => False
  end.

(** A zero or a finite float of sign [s], below [2^k] in absolute value. *)
Definition f64_within (s : bool) (k : Z) (x : spec_float) : Prop :=
  match x with
  | S754_zero s' => s' = s
  | S754_finite s' m e => s' = s /\ (e <= 971)%Z /\ (Zpos (digits2_pos m) + e <= k)%Z
  | _ => False
  end.

(** A zero, or a positive float that is at most the integer [N]. *)
Definition f64_at_most (N : Z) (x : spec_float) : Prop :=
  match x with
  | S754_zero _ => True
  | S754_finite false m e => (e <= 0)%Z /\ (Zpos m <= N * 2 ^ (- e))%Z
  | _ => False
  end.

(** The bits shifted out of a mantissa were not all zero. *)
Definition shr_inexact (mrs : shr_record) : bool := shr_r mrs || shr_s mrs.

(** * Properties *)

(** ** Index loops that write an array in place *)

Section IndexLoops.

Context {A : Type}.

(** A loop [for i in range(n): l[i] = G i l[i]] over the first [n]
    positions rewrites exactly those positions. *)
Lemma fold_alter_seq (G : nat -> A -> A) (l : list A) (n : nat) :
  (n <= length l)%nat ->
  fold_left (fun acc i => alter (G i) i acc) (seq 0 n) l
  = imap G (take n l) ++ drop n l.
Proof.
  induction n as [|n IH]; intros Hn.
  - by rewrite take_0, drop_0.
  - rewrite seq_S, fold_left_app, IH by lia. cbn [fold_left plus].
    destruct (lookup_lt_is_Some_2 l n) as [x Hx]; [lia|].
    assert (Hlen : length (imap G (take n l)) = n)
      by (rewrite length_imap, length_take; lia).
    rewrite alter_app_r_alt by lia.
    rewrite Hlen, Nat.sub_diag, (drop_S _ _ _ Hx). cbn [alter list_alter].
    rewrite (take_S_r _ _ _ Hx), imap_app, <- app_assoc. cbn [imap app].
    rewrite length_take, Nat.min_l, Nat.add_0_r by lia.
    reflexivity.
Qed.

Lemma fold_alter_all (G : nat -> A -> A) (l : list A) :
  fold_left (fun acc i => alter (G i) i acc) (seq 0 (length l)) l = imap G l.
Proof.
  rewrite fold_alter_seq by lia.
  by rewrite firstn_all, drop_all, app_nil_r.
Qed.

(** Writes to one row commute with the selection of that row. *)
Lemma fold_alter_row (F : nat -> list A -> list A) (i : nat)
      (js : list nat) (g : list (list A)) :
  fold_left (fun ng j => alter (F j) i ng) js g
  = alter (fun row => fold_left (fun r j => F j r) js row) i g.
Proof.
  revert g. induction js as [|j js IH]; intros g; cbn [fold_left].
  - symmetry. apply list_alter_id. done.
  - rewrite IH, list_alter_alter_eq. done.
Qed.

End IndexLoops.

(** ** One smoothing pass as a map over the snapshot *)

Lemma fold_left_ext_in {A B : Type} (f h : A -> B -> A) (l : list B) (a : A) :
  (forall x y, f x y = h x y) -> fold_left f l a = fold_left h l a.
Proof.
  intros E. revert a. induction l as [|b l IH]; intros a; cbn; [done|].
  by rewrite E, IH.
Qed.

Lemma fold_insert_all (f : nat -> R) (row : list R) :
  fold_left (fun r j => <[j := f j]> r) (seq 0 (length row)) row
  = imap (fun j _ => f j) row.
Proof.
  rewrite <- (fold_alter_all (fun j _ => f j) row).
  apply fold_left_ext_in. intros r j. apply list_insert_alter.
Qed.

Lemma smooth_row_alter (g : grid) (rows cols i : nat) (ng : grid) :
  smooth_row g rows cols i ng
  = alter (fun row =>
             fold_left (fun r j => <[j := mean (neighbors g rows cols i j)]> r)
                       (seq 0 cols) row) i ng.
Proof.
  unfold smooth_row, set_cell.
  apply (fold_alter_row (fun j => <[j := mean (neighbors g rows cols i j)]>)).
Qed.

Lemma shape_rect (cols : nat) (g : grid) :
  rect cols g -> g <> [] -> shape g = (length g, cols).
Proof.
  intros Hr Hne. destruct g as [|r g]; [done|].
  unfold shape. cbn. by inversion Hr; subst.
Qed.

(** The two nested loops leave, at every position, the mean of the
    neighbours read from the grid the pass started with. *)
Lemma smooth_pass_imap (cols : nat) (g : grid) :
  rect cols g ->
  smooth_pass (length g) cols g
  = imap (fun i row => imap (fun j _ => mean (neighbors g (length g) cols i j)) row) g.
Proof.
  intros Hr. unfold smooth_pass.
  rewrite (fold_left_ext_in _ _ _ _
             (fun ng i => smooth_row_alter g (length g) cols i ng)).
  rewrite (fold_alter_all
             (fun i row =>
                fold_left (fun r j => <[j := mean (neighbors g (length g) cols i j)]> r)
                          (seq 0 cols) row) g).
  apply imap_ext. intros i row Hrow.
  assert (Hlen : length row = cols).
  { unfold rect in Hr. rewrite Forall_lookup in Hr. by apply (Hr i). }
  rewrite <- Hlen at 1. apply fold_insert_all.
Qed.

Lemma rect_lookup (cols : nat) (g : grid) (i : nat) (row : list R) :
  rect cols g -> g !! i = Some row -> length row = cols.
Proof. unfold rect. rewrite Forall_lookup. intros H. apply H. Qed.

Lemma cell_lookup (g : grid) (i j : nat) (row : list R) (v : R) :
  g !! i = Some row -> row !! j = Some v -> cell g i j = v.
Proof. intros Hi Hj. unfold cell. rewrite Hi. cbn. by rewrite Hj. Qed.

Lemma cell_in_cells (cols : nat) (g : grid) (i j : nat) :
  rect cols g -> (i < length g)%nat -> (j < cols)%nat -> cell g i j ∈ cells g.
Proof.
  intros Hr Hi Hj.
  destruct (lookup_lt_is_Some_2 g i Hi) as [row Hrow].
  pose proof (rect_lookup _ _ _ _ Hr Hrow) as Hlen.
  destruct (lookup_lt_is_Some_2 row j) as [v Hv]; [lia|].
  rewrite (cell_lookup _ _ _ _ _ Hrow Hv).
  unfold cells. apply list_elem_of_In, in_concat. exists row.
  split; apply list_elem_of_In, list_elem_of_lookup; eauto.
Qed.

Lemma smooth_pass_cell (cols : nat) (g : grid) (i j : nat) :
  rect cols g -> (i < length g)%nat -> (j < cols)%nat ->
  cell (smooth_pass (length g) cols g) i j
  = mean (neighbors g (length g) cols i j).
Proof.
  intros Hr Hi Hj. rewrite (smooth_pass_imap cols g Hr).
  destruct (lookup_lt_is_Some_2 g i Hi) as [row Hrow].
  pose proof (rect_lookup _ _ _ _ Hr Hrow) as Hlen.
  destruct (lookup_lt_is_Some_2 row j) as [v Hv]; [lia|].
  apply (cell_lookup _ _ _
           (imap (fun j _ => mean (neighbors g (length g) cols i j)) row)).
  - by rewrite list_lookup_imap, Hrow.
  - by rewrite list_lookup_imap, Hv.
Qed.

Lemma smooth_pass_length (cols : nat) (g : grid) :
  rect cols g -> length (smooth_pass (length g) cols g) = length g.
Proof. intros Hr. by rewrite (smooth_pass_imap cols g Hr), length_imap. Qed.

Lemma smooth_pass_rect (cols : nat) (g : grid) :
  rect cols g -> rect cols (smooth_pass (length g) cols g).
Proof.
  intros Hr. rewrite (smooth_pass_imap cols g Hr).
  unfold rect. apply Forall_lookup. intros i row.
  rewrite list_lookup_imap. destruct (g !! i) as [r|] eqn:E; [|done].
  cbn. intros [= <-]. rewrite length_imap. by apply (rect_lookup cols g i).
Qed.

(** ** Sums and means *)

Lemma py_sum_from (l : list R) (a : R) :
  fold_left Rplus l a = a + py_sum l.
Proof.
  unfold py_sum. revert a. induction l as [|x l IH]; intros a; cbn.
  - lra.
  - rewrite IH, (IH (0 + x)). lra.
Qed.

Lemma py_sum_cons (x : R) (l : list R) : py_sum (x :: l) = x + py_sum l.
Proof. unfold py_sum at 1. cbn. rewrite py_sum_from. lra. Qed.

Lemma py_sum_app (l k : list R) : py_sum (l ++ k) = py_sum l + py_sum k.
Proof.
  induction l as [|x l IH]; cbn [app].
  - unfold py_sum at 2. cbn. lra.
  - rewrite !py_sum_cons, IH. lra.
Qed.

Lemma py_sum_bounds (lo hi : R) (l : list R) :
  Forall (fun v => lo <= v <= hi) l ->
  lo * INR (length l) <= py_sum l <= hi * INR (length l).
Proof.
  induction 1 as [|x l Hx _ IH].
  - unfold py_sum. cbn. lra.
  - rewrite py_sum_cons. cbn [length]. rewrite S_INR. lra.
Qed.

(** A mean of values of [[lo, hi]] stays in [[lo, hi]]. *)
Lemma mean_bounds (lo hi : R) (l : list R) :
  l <> [] -> Forall (fun v => lo <= v <= hi) l -> lo <= mean l <= hi.
Proof.
  intros Hne Hl. pose proof (py_sum_bounds lo hi l Hl) as Hs.
  assert (Hn : 0 < INR (length l)).
  { apply lt_0_INR. destruct l; [done|cbn; lia]. }
  unfold mean. split.
  - apply Rle_trans with (lo * INR (length l) / INR (length l)).
    + right. field. lra.
    + apply Rmult_le_compat_r; [|lra]. left. by apply Rinv_0_lt_compat.
  - apply Rle_trans with (hi * INR (length l) / INR (length l)).
    + apply Rmult_le_compat_r; [|lra]. left. by apply Rinv_0_lt_compat.
    + right. field. lra.
Qed.

Lemma neighbors_length (g : grid) (rows cols i j : nat) :
  (i < rows)%nat -> (j < cols)%nat ->
  length (neighbors g rows cols i j) = averaged rows cols i j.
Proof.
  intros Hi Hj. unfold neighbors, averaged.
  repeat case_decide; cbn; lia.
Qed.

Lemma neighbors_sum (g : grid) (rows cols i j : nat) :
  (i < rows)%nat -> (j < cols)%nat ->
  py_sum (neighbors g rows cols i j) = neighborhood_sum g rows cols i j.
Proof.
  intros Hi Hj. unfold neighbors, neighborhood_sum.
  rewrite !py_sum_app.
  repeat case_decide; try lia; unfold py_sum; cbn; lra.
Qed.

(** ** Bounds are kept by a pass *)

Lemma neighbors_in_cells (cols : nat) (g : grid) (i j : nat) :
  rect cols g -> (i < length g)%nat -> (j < cols)%nat ->
  Forall (fun v => v ∈ cells g) (neighbors g (length g) cols i j).
Proof.
  intros Hr Hi Hj. unfold neighbors.
  repeat first [ apply Forall_app; split | apply Forall_cons; split
               | apply Forall_nil | case_decide ];
    try (apply (cell_in_cells cols); [done|lia|lia]); done.
Qed.

Lemma neighbors_nonempty (g : grid) (rows cols i j : nat) :
  neighbors g rows cols i j <> [].
Proof. done. Qed.

Lemma cells_smooth_pass (cols : nat) (g : grid) (c : R) :
  rect cols g -> c ∈ cells (smooth_pass (length g) cols g) ->
  exists i j, (i < length g)%nat /\ (j < cols)%nat
              /\ c = mean (neighbors g (length g) cols i j).
Proof.
  intros Hr. rewrite (smooth_pass_imap cols g Hr). unfold cells.
  rewrite list_elem_of_In, in_concat. intros (row' & Hrow' & Hc).
  apply list_elem_of_In, elem_of_lookup_imap_1 in Hrow'.
  destruct Hrow' as (i & row & -> & Hrow).
  apply list_elem_of_In, elem_of_lookup_imap_1 in Hc.
  destruct Hc as (j & v & -> & Hv).
  exists i, j. repeat split.
  - by apply lookup_lt_Some in Hrow.
  - rewrite <- (rect_lookup cols g i row Hr Hrow). by apply lookup_lt_Some in Hv.
Qed.

Lemma smooth_pass_bounds (lo hi : R) (cols : nat) (g : grid) :
  rect cols g ->
  (forall c, c ∈ cells g -> lo <= c <= hi) ->
  forall c, c ∈ cells (smooth_pass (length g) cols g) -> lo <= c <= hi.
Proof.
  intros Hr Hg c Hc.
  destruct (cells_smooth_pass cols g c Hr Hc) as (i & j & Hi & Hj & ->).
  apply mean_bounds; [apply neighbors_nonempty|].
  eapply Forall_impl; [by apply (neighbors_in_cells cols)|].
  intros v Hv. cbn in Hv. by apply Hg.
Qed.

Lemma iter_pass_no_rows (cols n : nat) (g : grid) :
  Nat.iter n (smooth_pass 0 cols) g = g.
Proof. induction n as [|n IH]; [done|]. by rewrite Nat.iter_succ, IH. Qed.

(** Iterated passes keep the shape and the bounds. *)
Lemma iter_pass_invariant (lo hi : R) (cols : nat) (g : grid) (n : nat) :
  rect cols g ->
  (forall c, c ∈ cells g -> lo <= c <= hi) ->
  rect cols (Nat.iter n (smooth_pass (length g) cols) g)
  /\ length (Nat.iter n (smooth_pass (length g) cols) g) = length g
  /\ (forall c, c ∈ cells (Nat.iter n (smooth_pass (length g) cols) g) ->
                lo <= c <= hi).
Proof.
  intros Hr Hg. induction n as [|n (IHr & IHl & IHb)]; [done|].
  rewrite Nat.iter_succ.
  remember (Nat.iter n (smooth_pass (length g) cols) g) as gn eqn:Egn.
  clear Egn. rewrite <- IHl.
  split; [by apply smooth_pass_rect|].
  split; [by apply (smooth_pass_length cols)|].
  by apply smooth_pass_bounds.
Qed.

Lemma passes_rect_iter (cols : nat) (g : grid) (n : nat) :
  rect cols g -> passes n g = Nat.iter n (smooth_pass (length g) cols) g.
Proof.
  intros Hr. unfold passes. destruct (decide (g = [])) as [->|Hne].
  - cbn [shape length head from_option]. by rewrite !iter_pass_no_rows.
  - by rewrite (shape_rect cols g Hr Hne).
Qed.

Lemma passes_bounds (lo hi : R) (cols : nat) (g : grid) (n : nat) :
  rect cols g ->
  (forall c, c ∈ cells g -> lo <= c <= hi) ->
  forall c, c ∈ cells (passes n g) -> lo <= c <= hi.
Proof.
  intros Hr Hg. rewrite (passes_rect_iter cols g n Hr).
  by apply (iter_pass_invariant lo hi cols g n Hr Hg).
Qed.

(** The loop [for _ in range(steps)] runs [max(steps, 0)] passes. *)
Lemma smooth_grid_passes (g : grid) (stiffness_factor : R) (iterations : Z) :
  _smooth_grid_bounded g stiffness_factor iterations
  = passes (Z.to_nat (smooth_steps stiffness_factor iterations)) g.
Proof.
  unfold _smooth_grid_bounded, py_range, passes.
  destruct (shape g) as [rows cols].
  generalize (Z.to_nat (smooth_steps stiffness_factor iterations)) as n.
  intros n. generalize 0%nat as k. revert g.
  induction n as [|n IH]; intros g k; [done|].
  cbn [seq fold_left]. rewrite IH, Nat.iter_succ_r. done.
Qed.

Lemma fold_Rmin_le (l : list R) (a : R) :
  fold_left Rmin l a <= a /\ Forall (fun x => fold_left Rmin l a <= x) l.
Proof.
  revert a. induction l as [|x l IH]; intros a; cbn.
  - split; [lra|constructor].
  - destruct (IH (Rmin a x)) as [H1 H2].
    pose proof (Rmin_l a x). pose proof (Rmin_r a x).
    split; [lra|]. constructor; [lra|done].
Qed.

Lemma fold_Rmax_ge (l : list R) (a : R) :
  a <= fold_left Rmax l a /\ Forall (fun x => x <= fold_left Rmax l a) l.
Proof.
  revert a. induction l as [|x l IH]; intros a; cbn.
  - split; [lra|constructor].
  - destruct (IH (Rmax a x)) as [H1 H2].
    pose proof (Rmax_l a x). pose proof (Rmax_r a x).
    split; [lra|]. constructor; [lra|done].
Qed.

Lemma grid_min_max_bounds (g : grid) (c : R) :
  c ∈ cells g -> grid_min g <= c <= grid_max g.
Proof.
  unfold grid_min, grid_max. destruct (cells g) as [|c0 cs]; intros Hc.
  - by apply elem_of_nil in Hc.
  - destruct (fold_Rmin_le cs c0) as [Hm0 Hm].
    destruct (fold_Rmax_ge cs c0) as [HM0 HM].
    apply elem_of_cons in Hc as [->|Hc]; [done|].
    rewrite Forall_forall in Hm, HM. split; [by apply Hm | by apply HM].
Qed.

(** ** The smoothing pass (claims C2 and C3) *)

Lemma averaged_by_position (rows cols i j : nat) :
  (i < rows)%nat -> (j < cols)%nat ->
  (is_interior rows cols i j -> averaged rows cols i j = 5%nat)
  /\ ((2 <= rows)%nat -> (2 <= cols)%nat ->
      (is_corner rows cols i j -> averaged rows cols i j = 3%nat)
      /\ (is_edge rows cols i j -> averaged rows cols i j = 4%nat)).
Proof.
  intros Hi Hj. unfold is_edge, on_border, is_interior, is_corner, averaged.
  split; [|intros Hr Hc; split]; intros H; repeat case_decide; lia.
Qed.

(** C2 (as amended). On a [rows] x [cols] grid, one smoothing pass puts in
    every cell [(i, j)] the mean of the cell's own value and of each
    orthogonal neighbour that exists (no wraparound), every value being
    read from the grid as it was before the pass. An interior cell
    averages 5 values; when the grid has at least two rows and two
    columns, a corner cell averages 3 values and a non-corner edge cell 4. *)
Theorem smooth_pass_averages_existing_neighbors (g : grid) (cols i j : nat) :
  rect cols g -> (i < length g)%nat -> (j < cols)%nat ->
  cell (smooth_pass (length g) cols g) i j
  = neighborhood_sum g (length g) cols i j / INR (averaged (length g) cols i j)
  /\ (is_interior (length g) cols i j -> averaged (length g) cols i j = 5%nat)
  /\ ((2 <= length g)%nat -> (2 <= cols)%nat ->
      (is_corner (length g) cols i j -> averaged (length g) cols i j = 3%nat)
      /\ (is_edge (length g) cols i j -> averaged (length g) cols i j = 4%nat)).
Proof.
  intros Hr Hi Hj. split.
  - rewrite (smooth_pass_cell cols g i j Hr Hi Hj). unfold mean.
    by rewrite neighbors_sum, neighbors_length.
  - by apply averaged_by_position.
Qed.

Lemma smooth_pass_averages_existing_neighbors_witness :
  let g := [[1; 2]; [3; 4]] in
  cell (smooth_pass (length g) 2 g) 0 0
  = neighborhood_sum g (length g) 2 0 0 / INR (averaged (length g) 2 0 0)
  /\ (is_interior (length g) 2 0 0 -> averaged (length g) 2 0 0 = 5%nat)
  /\ ((2 <= length g)%nat -> (2 <= 2)%nat ->
      (is_corner (length g) 2 0 0 -> averaged (length g) 2 0 0 = 3%nat)
      /\ (is_edge (length g) 2 0 0 -> averaged (length g) 2 0 0 = 4%nat)).
Proof.
  apply (smooth_pass_averages_existing_neighbors [[1; 2]; [3; 4]] 2 0 0).
  - repeat constructor.
  - cbn. lia.
  - lia.
Defined.

(** C2 (as stated) fails on a grid with a single row: the corner cell
    [(0, 0)] of the 1 x 2 grid [[0, 3]] has one existing neighbour, so the
    pass averages two values, not three, and stores their mean 3/2. *)
Lemma smooth_pass_thin_grid_corner :
  let g := [[0; 3]] in
  rect 2 g /\ is_corner (length g) 2 0 0
  /\ length (neighbors g (length g) 2 0 0) = 2%nat
  /\ length (neighbors g (length g) 2 0 0) <> 3%nat
  /\ shape g = (1%nat, 2%nat)
  /\ cell (smooth_pass 1 2 g) 0 0 = 3 / 2.
Proof.
  cbn zeta. split; [repeat constructor|].
  split; [unfold is_corner; cbn; lia|].
  split; [reflexivity|]. split; [change (2 <> 3)%nat; lia|].
  split; [reflexivity|].
  rewrite (smooth_pass_cell 2 [[0; 3]]); [|repeat constructor|cbn; lia|lia].
  unfold mean. rewrite neighbors_sum, neighbors_length by (cbn; lia).
  unfold neighborhood_sum, averaged, cell.
  cbn [length]. repeat case_decide; try lia. cbn. field.
Qed.



(** ** The number of passes (claims C4 and C10) *)

Lemma py_int_nonneg (x : R) : 0 <= x -> py_int x = Zfloor x.
Proof. intros H. unfold py_int. by destruct (Rle_dec 0 x). Qed.

Lemma py_int_neg (x : R) : x < 0 -> py_int x = Zceil x /\ (Zceil x <= 0)%Z.
Proof.
  intros H. unfold py_int. destruct (Rle_dec 0 x); [lra|]. split; [done|].
  pose proof (Zceil_bound x) as [Hc _].
  apply Z.lt_succ_r, lt_IZR. rewrite succ_IZR. lra.
Qed.

Lemma py_int_eq (x : R) (z : Z) :
  (0 <= z)%Z -> IZR z <= x < IZR z + 1 -> py_int x = z.
Proof.
  intros Hz Hx. rewrite py_int_nonneg.
  - by apply Zfloor_eq.
  - apply IZR_le in Hz. lra.
Qed.

(** Truncation and floor give the same number of loop iterations. *)
Lemma py_int_passes (x : R) : Z.to_nat (py_int x) = Z.to_nat (Zfloor x).
Proof.
  destruct (Rle_dec 0 x) as [H|H].
  - by rewrite py_int_nonneg.
  - destruct (py_int_neg x) as [-> Hc]; [lra|].
    pose proof (Zfloor_bound x) as [Hf _].
    assert (Zfloor x <= 0)%Z by (apply le_IZR; lra).
    lia.
Qed.

Lemma smooth_steps_stiff (stiffness_factor : R) (iterations : Z) :
  1 <= stiffness_factor -> (0 <= iterations)%Z ->
  (smooth_steps stiffness_factor iterations <= 0)%Z.
Proof.
  intros Hs Hit. unfold smooth_steps. apply IZR_le in Hit.
  set (x := (1.0 - stiffness_factor) * IZR iterations).
  assert (Hx : x <= 0) by (unfold x; nra).
  destruct (Rle_dec 0 x) as [H0|H0].
  - rewrite py_int_nonneg by done. replace x with (IZR 0) by lra.
    by rewrite ZfloorZ.
  - by destruct (py_int_neg x) as [-> Hc]; [lra|].
Qed.

Lemma smooth_steps_budget (stiffness_factor : R) (iterations : Z) :
  0 <= stiffness_factor -> (0 <= iterations)%Z ->
  (smooth_steps stiffness_factor iterations <= iterations)%Z.
Proof.
  intros Hs Hit. unfold smooth_steps. pose proof (IZR_le _ _ Hit) as Hit'.
  set (x := (1.0 - stiffness_factor) * IZR iterations).
  assert (Hx : x <= IZR iterations) by (unfold x; nra).
  destruct (Rle_dec 0 x) as [H0|H0].
  - rewrite py_int_nonneg by done.
    rewrite <- (ZfloorZ iterations). by apply Zfloor_le.
  - destruct (py_int_neg x) as [-> Hc]; [lra|]. lia.
Qed.

Lemma smooth_steps_negative_stiffness (stiffness_factor : R) (iterations : Z) :
  stiffness_factor < 0 -> (0 < iterations)%Z ->
  (iterations <= smooth_steps stiffness_factor iterations)%Z
  /\ ((iterations < smooth_steps stiffness_factor iterations)%Z
      <-> stiffness_factor * IZR iterations <= -1).
Proof.
  intros Hs Hit. unfold smooth_steps. pose proof (IZR_lt _ _ Hit) as Hit'.
  set (x := (1.0 - stiffness_factor) * IZR iterations).
  assert (Hx : IZR iterations < x) by (unfold x; nra).
  rewrite py_int_nonneg by lra. split.
  - apply Zfloor_lub. lra.
  - pose proof (Zfloor_bound x) as [Hf1 Hf2]. split.
    + intros Hlt. assert (Hle : (iterations + 1 <= Zfloor x)%Z) by lia.
      apply IZR_le in Hle. rewrite plus_IZR in Hle. unfold x in *. lra.
    + intros Hle. assert (Hub : (iterations + 1 <= Zfloor x)%Z).
      { apply Zfloor_lub. rewrite plus_IZR. unfold x. lra. }
      lia.
Qed.

Lemma passes_zero_steps (g : grid) (stiffness_factor : R) (iterations : Z) :
  (smooth_steps stiffness_factor iterations <= 0)%Z ->
  _smooth_grid_bounded g stiffness_factor iterations = g.
Proof.
  intros H. rewrite smooth_grid_passes.
  replace (Z.to_nat _) with 0%nat by lia.
  unfold passes. by destruct (shape g).
Qed.






(** ** The base profile (claim C5) *)

Lemma linspace_ok (start stop : R) (num : Z) :
  (0 <= num)%Z ->
  exists y, linspace start stop num = Ok y /\ length y = Z.to_nat num.
Proof.
  intros Hn. unfold linspace.
  destruct (Z.ltb_spec num 0) as [?|_]; [lia|].
  eexists. split; [reflexivity|].
  repeat first [ rewrite length_insert | rewrite length_fmap | rewrite length_seq
               | case_match ]; done.
Qed.

(** Sample [i] of [linspace] is [start + i * (stop - start) / (num - 1)]. *)
Lemma linspace_lookup (start stop : R) (num : Z) (y : list R) (i : nat) :
  (1 < num)%Z -> linspace start stop num = Ok y -> (i < Z.to_nat num)%nat ->
  y !! i = Some (start + INR i * (stop - start) / IZR (num - 1)).
Proof.
  intros Hn Hy Hi. unfold linspace in Hy.
  destruct (Z.ltb_spec num 0) as [?|_]; [lia|].
  destruct (Z.ltb_spec 0 (num - 1)) as [Hd|?]; [|lia].
  destruct (Z.ltb_spec 1 num) as [_|?]; [|lia].
  assert (Hd' : 0 < IZR (num - 1)) by (by apply IZR_lt).
  injection Hy as <-.
  destruct (decide (i = Z.to_nat (num - 1))) as [->|Hne].
  - rewrite list_lookup_insert_eq.
    + f_equal. rewrite INR_IZR_INZ, Z2Nat.id by lia. field. lra.
    + repeat first [ rewrite length_fmap | rewrite length_seq | case_match ]; lia.
  - rewrite list_lookup_insert_ne by done.
    destruct (Req_dec_T ((stop - start) / IZR (num - 1)) 0) as [Hz|Hz];
      rewrite !list_lookup_fmap, lookup_seq_lt by done; cbn; f_equal.
    + assert (stop - start = 0).
      { apply Rmult_eq_compat_r with (r := IZR (num - 1)) in Hz.
        rewrite Rmult_0_l in Hz. rewrite <- Hz. field. lra. }
      replace stop with start by lra. field. lra.
    + field. lra.
Qed.

Lemma base_profile_ok (rows : Z) :
  (0 <= rows)%Z ->
  exists p, _base_longitudinal_profile rows = Ok p /\ length p = Z.to_nat rows.
Proof.
  intros Hn. destruct (linspace_ok 0 1 rows Hn) as (y & Hy & Hlen).
  exists ((fun v => 1.2 - v) <$> y). unfold _base_longitudinal_profile.
  rewrite Hy. cbn. by rewrite length_fmap.
Qed.

Lemma base_profile_lookup (rows : Z) (p : list R) (i : nat) :
  (1 < rows)%Z -> _base_longitudinal_profile rows = Ok p ->
  (i < Z.to_nat rows)%nat ->
  p !! i = Some (1.2 - INR i / IZR (rows - 1)).
Proof.
  intros Hn Hp Hi. unfold _base_longitudinal_profile in Hp.
  destruct (linspace 0 1 rows) as [y|e] eqn:Hy; [|done].
  cbn in Hp. injection Hp as <-.
  rewrite list_lookup_fmap, (linspace_lookup 0 1 rows y i Hn Hy Hi). cbn.
  f_equal. assert (0 < IZR (rows - 1)) by (apply IZR_lt; lia). field. lra.
Qed.

(** C5. For [rows > 1] the base profile has [rows] entries, entry [i] is
    [1.2 - i / (rows - 1)], the entries decrease strictly, the first is 1.2
    and the last is 0.2; for [rows = 1] the profile is the single value
    1.2. *)
Theorem base_profile_linear_decreasing (rows : Z) :
  ((1 < rows)%Z ->
   exists p : list R,
     _base_longitudinal_profile rows = Ok p
     /\ length p = Z.to_nat rows
     /\ (forall i : nat, (i < Z.to_nat rows)%nat ->
                         p !! i = Some (1.2 - INR i / IZR (rows - 1)))
     /\ (forall (i j : nat) (vi vj : R),
            (i < j)%nat -> p !! i = Some vi -> p !! j = Some vj -> vj < vi)
     /\ p !! 0%nat = Some 1.2
     /\ p !! Z.to_nat (rows - 1) = Some 0.2)
  /\ (rows = 1%Z -> _base_longitudinal_profile rows = Ok [1.2]).
Proof.
  split.
  - intros Hn. destruct (base_profile_ok rows) as (p & Hp & Hlen); [lia|].
    assert (Hd : 0 < IZR (rows - 1)) by (apply IZR_lt; lia).
    pose proof (base_profile_lookup rows p) as Hlk.
    exists p. split; [done|]. split; [done|]. split; [by auto|].
    split; [|split].
    + intros i j vi vj Hij Hi Hj.
      assert (Hjn : (j < Z.to_nat rows)%nat)
        by (rewrite <- Hlen; by apply lookup_lt_Some in Hj).
      rewrite Hlk in Hi, Hj by (done || lia).
      injection Hi as <-. injection Hj as <-.
      apply lt_INR in Hij.
      apply Rplus_lt_compat_l, Ropp_lt_contravar.
      apply Rmult_lt_compat_r; [by apply Rinv_0_lt_compat|done].
    + rewrite Hlk by (done || lia). f_equal. cbn [INR].
      unfold Rdiv. rewrite Rmult_0_l. lra.
    + rewrite Hlk by (done || lia). f_equal.
      rewrite INR_IZR_INZ, Z2Nat.id by lia.
      replace (IZR (rows - 1) / IZR (rows - 1)) with 1 by (field; lra). lra.
  - intros ->. unfold _base_longitudinal_profile, linspace.
    change (0 <? 1 - 1)%Z with false. change (Z.to_nat 1) with 1%nat.
    cbn. do 2 f_equal. lra.
Qed.

Lemma base_profile_linear_decreasing_witness :
  (1 < 3)%Z
  /\ exists p : list R,
      _base_longitudinal_profile 3 = Ok p
      /\ length p = Z.to_nat 3
      /\ (forall i : nat, (i < Z.to_nat 3)%nat ->
                          p !! i = Some (1.2 - INR i / IZR (3 - 1)))
      /\ (forall (i j : nat) (vi vj : R),
             (i < j)%nat -> p !! i = Some vi -> p !! j = Some vj -> vj < vi)
      /\ p !! 0%nat = Some 1.2
      /\ p !! Z.to_nat (3 - 1) = Some 0.2.
Proof.
  split; [lia|].
  apply (proj1 (base_profile_linear_decreasing 3)). lia.
Defined.

(** ** The arch bias (claim C6) *)

Lemma slice_bound_inside (len k : Z) :
  (0 <= k <= len)%Z -> slice_bound len k = Z.to_nat k.
Proof.
  intros H. unfold slice_bound.
  destruct (Z.ltb_spec k 0); [lia|]. f_equal. lia.
Qed.

Lemma slice_iadd_length (lo hi : Z) (d : R) (a : list R) :
  length (slice_iadd lo hi d a) = length a.
Proof.
  unfold slice_iadd.
  rewrite !length_app, length_fmap, !length_take, !length_drop. lia.
Qed.

(** Inside [0 <= lo], [hi <= len] the slice covers the indices of
    [[lo, hi)], and only those are shifted. *)
Lemma slice_iadd_lookup (lo hi : Z) (d : R) (a : list R) (i : nat) (v : R) :
  (0 <= lo)%Z -> (0 <= hi <= Z.of_nat (length a))%Z -> (lo <= hi)%Z ->
  a !! i = Some v ->
  slice_iadd lo hi d a !! i
  = Some (if decide (lo <= Z.of_nat i < hi)%Z then v + d else v).
Proof.
  intros Hlo Hhi Hle Hv. pose proof (lookup_lt_Some _ _ _ Hv) as Hi.
  unfold slice_iadd. rewrite !slice_bound_inside by lia.
  set (s := Z.to_nat lo). set (e := Z.to_nat hi).
  assert (Hse : (s <= e <= length a)%nat) by lia.
  destruct (decide (i < s)%nat) as [H1|H1].
  - rewrite lookup_app_l by (rewrite length_take; lia).
    rewrite lookup_take_lt by done. rewrite Hv.
    case_decide; [lia|done].
  - rewrite lookup_app_r by (rewrite length_take; lia).
    rewrite length_take, Nat.min_l by lia.
    destruct (decide (i < e)%nat) as [H2|H2].
    + rewrite lookup_app_l
        by (rewrite length_fmap, length_take, length_drop; lia).
      rewrite list_lookup_fmap, lookup_take_lt, lookup_drop by lia.
      replace (s + (i - s))%nat with i by lia. rewrite Hv. cbn.
      case_decide; [done|lia].
    + rewrite lookup_app_r
        by (rewrite length_fmap, length_take, length_drop; lia).
      rewrite length_fmap, length_take, length_drop, lookup_drop.
      replace (s + (e - s) + (i - s - (e - s) `min` (length a - s)))%nat
        with i by lia.
      rewrite Hv. case_decide; [lia|done].
Qed.

Lemma slice_iadd_empty (lo hi : Z) (d : R) (a : list R) :
  (0 <= lo)%Z -> (0 <= hi <= Z.of_nat (length a))%Z -> (hi <= lo)%Z ->
  slice_iadd lo hi d a = a.
Proof.
  intros Hlo Hhi Hle. unfold slice_iadd.
  assert (Hs : (slice_bound (Z.of_nat (length a)) hi
                - slice_bound (Z.of_nat (length a)) lo = 0)%nat).
  { unfold slice_bound. destruct (Z.ltb_spec hi 0), (Z.ltb_spec lo 0); lia. }
  rewrite Hs, Nat.add_0_r. cbn. apply take_drop.
Qed.

(** The midfoot window lies inside the profile. *)
Lemma mid_window (rows : Z) :
  (0 <= rows)%Z ->
  py_int (0.35 * IZR rows) = Zfloor (0.35 * IZR rows)
  /\ py_int (0.65 * IZR rows) = Zfloor (0.65 * IZR rows)
  /\ (0 <= Zfloor (0.35 * IZR rows) <= Zfloor (0.65 * IZR rows))%Z
  /\ (Zfloor (0.65 * IZR rows) <= rows)%Z.
Proof.
  intros Hr. apply IZR_le in Hr.
  rewrite !py_int_nonneg by lra. split; [done|]. split; [done|].
  split; [split|].
  - apply Zfloor_lub. lra.
  - apply Zfloor_le. lra.
  - rewrite <- (ZfloorZ rows) at 2. apply Zfloor_le. lra.
Qed.



(** ** The capacity shaper (claim C7) *)

Lemma capacity_exponent_Rmax (capacity : R) :
  capacity_exponent capacity = Rmax 0.5 (1.5 - capacity).
Proof.
  unfold capacity_exponent, py_max, Rmax.
  destruct (Rlt_dec 0.5 (1.5 - capacity)), (Rle_dec 0.5 (1.5 - capacity)); lra.
Qed.

Lemma capacity_exponent_floor (capacity : R) :
  0.5 <= capacity_exponent capacity
  /\ (capacity_exponent capacity = 0.5 <-> 1.0 <= capacity).
Proof.
  unfold capacity_exponent, py_max.
  destruct (Rlt_dec 0.5 (1.5 - capacity)); split; try split; lra.
Qed.

Lemma np_power_nonneg (x e : R) :
  0 <= x -> 0 < e -> np_power x e = Some (nonneg_power x e).
Proof.
  intros Hx He. unfold np_power, nonneg_power.
  destruct (Rlt_dec 0 x), (Req_dec_T x 0); try lra; [done|].
  by destruct (Rlt_dec 0 e).
Qed.

Lemma nonneg_power_pos (x e : R) : 0 < x -> nonneg_power x e = Rpower x e.
Proof. intros Hx. unfold nonneg_power. destruct (Req_dec_T x 0); [lra|done]. Qed.

Lemma nonneg_power_monotone (x y e : R) :
  0 < e -> 0 <= x -> x <= y ->
  nonneg_power x e <= nonneg_power y e
  /\ (x < y -> nonneg_power x e < nonneg_power y e).
Proof.
  intros He Hx Hxy. unfold nonneg_power.
  destruct (Req_dec_T x 0) as [->|Hx0], (Req_dec_T y 0) as [->|Hy0]; try lra.
  - assert (0 < Rpower y e) by apply exp_pos. lra.
  - split.
    + apply Rle_Rpower_l; lra.
    + intros Hlt. apply Rlt_Rpower_l; lra.
Qed.

Lemma mapM_total {A B : Type} (f : A -> option B) (h : A -> B) (l : list A) :
  Forall (fun x => f x = Some (h x)) l -> mapM f l = Some (h <$> l).
Proof.
  induction 1 as [|x l Hx _ IH]; [done|].
  cbn. rewrite Hx. cbn. rewrite IH. done.
Qed.

Lemma cells_Forall (P : R -> Prop) (g : grid) :
  (forall c, c ∈ cells g -> P c) -> Forall (Forall P) g.
Proof.
  intros H. apply Forall_forall. intros row Hrow.
  apply Forall_forall. intros c Hc. apply H.
  unfold cells. apply list_elem_of_In, in_concat. exists row.
  split; by apply list_elem_of_In.
Qed.

(** On a grid without negative cells the shaper returns the grid of the
    powers. *)
Lemma contact_capacity_nonneg (g : grid) (capacity : R) :
  (forall c, c ∈ cells g -> 0 <= c) ->
  _apply_contact_capacity g capacity
  = Some ((fun row : list R =>
             (fun c => nonneg_power c (capacity_exponent capacity)) <$> row) <$> g).
Proof.
  intros Hg. unfold _apply_contact_capacity.
  destruct (capacity_exponent_floor capacity) as [He _].
  apply mapM_total. eapply Forall_impl; [apply (cells_Forall _ g Hg)|].
  intros row Hrow. cbn in *. apply mapM_total.
  eapply Forall_impl; [exact Hrow|]. intros c Hc. cbn in *.
  apply np_power_nonneg; lra.
Qed.

Lemma contact_capacity_cells (g g' : grid) (capacity : R) :
  _apply_contact_capacity g capacity = Some g'
  <-> Forall2 (Forall2 (fun c c' => np_power c (capacity_exponent capacity) = Some c'))
              g g'.
Proof.
  unfold _apply_contact_capacity. rewrite mapM_Some.
  split; intros H; (eapply Forall2_impl; [exact H|]);
    intros row row'; cbn; by rewrite mapM_Some.
Qed.

(** C7. The capacity shaper uses the exponent
    [max(0.5, 1.5 - contact_capacity)], which is 0.5 exactly when
    [contact_capacity >= 1.0]; it replaces every cell [c] by [c] raised
    to that exponent, keeping the shape; on cells that are not negative
    the power is the real power, and it is monotonic (strictly so) in the
    cell value. *)
Theorem capacity_shaper_power_law (capacity : R) :
  let e := capacity_exponent capacity in
  e = Rmax 0.5 (1.5 - capacity)
  /\ (e = 0.5 <-> 1.0 <= capacity)
  /\ (forall g g' : grid,
         _apply_contact_capacity g capacity = Some g'
         <-> Forall2 (Forall2 (fun c c' => np_power c e = Some c')) g g')
  /\ (forall g : grid,
         (forall c, c ∈ cells g -> 0 <= c) ->
         exists g' : grid,
           _apply_contact_capacity g capacity = Some g'
           /\ Forall2 (Forall2 (fun c c' => c' = nonneg_power c e)) g g')
  /\ (forall x y : R,
         0 <= x -> x <= y ->
         exists px py : R,
           np_power x e = Some px /\ np_power y e = Some py
           /\ px <= py /\ (x < y -> px < py)).
Proof.
  cbn zeta. destruct (capacity_exponent_floor capacity) as [He Hhalf].
  split; [apply capacity_exponent_Rmax|]. split; [done|].
  split; [intros g g'; apply contact_capacity_cells|]. split.
  - intros g Hg. eexists. split; [by apply contact_capacity_nonneg|].
    apply Forall2_fmap_r, Forall_Forall2_diag, Forall_forall. intros row _.
    apply Forall2_fmap_r, Forall_Forall2_diag, Forall_forall. done.
  - intros x y Hx Hxy.
    exists (nonneg_power x (capacity_exponent capacity)),
           (nonneg_power y (capacity_exponent capacity)).
    rewrite !np_power_nonneg by lra. split; [done|]. split; [done|].
    apply nonneg_power_monotone; lra.
Qed.

Lemma capacity_shaper_power_law_witness :
  0 <= 1 /\ 1 <= 4
  /\ exists px py : R,
      np_power 1 (capacity_exponent 0.8) = Some px
      /\ np_power 4 (capacity_exponent 0.8) = Some py
      /\ px <= py /\ (1 < 4 -> px < py).
Proof.
  destruct (capacity_shaper_power_law 0.8) as (_ & _ & _ & _ & H).
  split; [lra|]. split; [lra|]. apply H; lra.
Defined.

(** ** The whole pipeline (claims C1, C8 and C9) *)

(** Runs the binds of the error monad whose first part is a value. *)
Ltac bind_step := cbn [mbind outcome_bind mret outcome_ret].

Lemma arch_bias_length (rows : Z) (profile : list R) (arch_bias : R) :
  length (_apply_arch_bias rows profile arch_bias) = length profile.
Proof. apply slice_iadd_length. Qed.

Lemma arch_bias_lookup (rows : Z) (profile : list R) (arch_bias : R) (i : nat) (v : R) :
  Z.of_nat (length profile) = rows -> profile !! i = Some v ->
  _apply_arch_bias rows profile arch_bias !! i
  = Some (if decide (Zfloor (0.35 * IZR rows) <= Z.of_nat i
                     < Zfloor (0.65 * IZR rows))%Z
          then v + arch_bias else v).
Proof.
  intros Hlen Hv. unfold _apply_arch_bias.
  destruct (mid_window rows) as (-> & -> & [H0 H1] & H2); [lia|].
  apply slice_iadd_lookup; (done || lia).
Qed.

Lemma getitem_Some (d : gmap string R) (k : string) (v : R) :
  d !! k = Some v -> getitem d k = Ok v.
Proof. intros H. unfold getitem. by rewrite H. Qed.

Lemma getitem_None (d : gmap string R) (k : string) :
  d !! k = None -> getitem d k = Raise (KeyError k).
Proof. intros H. unfold getitem. by rewrite H. Qed.

(** With a stiffness factor of 1.0 the smoother changes nothing. *)
Lemma generate_stiff (rows cols : Z) (params : gmap string R) :
  params !! "stiffness_factor" = Some 1.0 ->
  generate_pressure_field rows cols params = stages_1_to_4 rows cols params.
Proof.
  intros Hs. unfold generate_pressure_field, stages_1_to_4.
  destruct (_base_longitudinal_profile rows) as [p|e]; [cbn|done].
  destruct (getitem params "arch_bias") as [ab|e]; [cbn|done].
  destruct (_expand_to_grid cols _) as [g|e]; [cbn|done].
  destruct (getitem params "contact_capacity") as [cc|e]; [cbn|done].
  rewrite (getitem_Some _ _ _ Hs). cbn. unfold mret, outcome_ret. f_equal.
  destruct (_apply_contact_capacity g cc) as [g'|]; [cbn|done].
  f_equal. apply passes_zero_steps. unfold smooth_steps, default_iterations.
  replace ((1.0 - 1.0) * 3) with (IZR 0) by lra.
  rewrite py_int_nonneg by (cbn; lra). by rewrite ZfloorZ.
Qed.

Lemma cells_expand (cols : nat) (q : list R) (c : R) :
  c ∈ cells ((fun v => replicate cols v) <$> q) -> c ∈ q.
Proof.
  unfold cells. rewrite list_elem_of_In, in_concat.
  intros (row & Hrow & Hc).
  apply list_elem_of_In, list_elem_of_fmap in Hrow as (v & -> & Hv).
  apply list_elem_of_In, elem_of_replicate in Hc as [-> _]. done.
Qed.

(** Every entry of the biased profile of the example is at least 0.2. *)
Lemma example_profile_positive (p : list R) (c : R) :
  _base_longitudinal_profile 10 = Ok p -> length p = 10%nat ->
  c ∈ _apply_arch_bias 10 p 0.1 -> 0.2 <= c.
Proof.
  intros Hp Hlen Hc. apply list_elem_of_lookup in Hc as [i Hi].
  assert (Hi10 : (i < 10)%nat).
  { apply lookup_lt_Some in Hi. rewrite arch_bias_length in Hi. lia. }
  pose proof (base_profile_lookup 10 p i) as Hv.
  rewrite (arch_bias_lookup 10 p 0.1 i _ ltac:(lia) (Hv ltac:(lia) Hp ltac:(lia))) in Hi.
  injection Hi as <-.
  pose proof (le_INR i 9 ltac:(lia)) as H9.
  rewrite (INR_IZR_INZ 9) in H9. change (Z.of_nat 9) with 9%Z in H9.
  change (10 - 1)%Z with 9%Z.
  case_decide; lra.
Qed.

Lemma example_params_lookup :
  example_params !! "arch_bias" = Some 0.1
  /\ example_params !! "contact_capacity" = Some 0.8
  /\ example_params !! "stiffness_factor" = Some 1.0.
Proof.
  unfold example_params. repeat split; by simplify_map_eq.
Qed.


Lemma base_profile_negative (rows : Z) :
  (rows < 0)%Z -> _base_longitudinal_profile rows = Raise ValueError.
Proof.
  intros H. unfold _base_longitudinal_profile, linspace.
  by destruct (Z.ltb_spec rows 0); [|lia].
Qed.

Lemma expand_negative (cols : Z) (profile : list R) :
  (cols < 0)%Z -> _expand_to_grid cols profile = Raise ValueError.
Proof. intros H. unfold _expand_to_grid. by destruct (Z.ltb_spec cols 0); [|lia]. Qed.

Lemma expand_ok (cols : Z) (profile : list R) :
  (0 <= cols)%Z ->
  _expand_to_grid cols profile
  = Ok ((fun v => replicate (Z.to_nat cols) v) <$> profile).
Proof. intros H. unfold _expand_to_grid. by destruct (Z.ltb_spec cols 0); [lia|]. Qed.

Lemma passes_nil (n : nat) : passes n [] = [].
Proof.
  unfold passes. cbn [shape length head from_option]. apply iter_pass_no_rows.
Qed.

(** A grid without cells stays without cells. *)
Lemma passes_no_cells (cols : nat) (g : grid) (n : nat) :
  rect cols g -> cells g = [] -> cells (passes n g) = [].
Proof.
  intros Hr Hg.
  assert (H : forall c, c ∈ cells (passes n g) -> 1 <= c <= 0).
  { apply (passes_bounds 1 0 cols g n Hr). intros c Hc.
    rewrite Hg in Hc. by apply elem_of_nil in Hc. }
  destruct (cells (passes n g)) as [|c cs]; [done|].
  specialize (H c ltac:(apply elem_of_cons; by left)). lra.
Qed.

Lemma concat_empty_rows {A : Type} (n : nat) :
  concat (replicate n ([] : list A)) = [].
Proof. induction n as [|n IH]; [done|]. cbn. exact IH. Qed.

(** With a row or column count of zero and the three fields present the
    call returns a grid without cells. *)
Lemma generate_no_cells (rows cols : Z) (params : gmap string R) :
  (0 <= rows)%Z -> (0 <= cols)%Z -> (rows = 0 \/ cols = 0)%Z ->
  is_Some (params !! "arch_bias") ->
  is_Some (params !! "contact_capacity") ->
  is_Some (params !! "stiffness_factor") ->
  exists g : grid,
    generate_pressure_field rows cols params = Ok (Some g) /\ cells g = [].
Proof.
  intros Hr Hc Hz [ab Hab] [cc Hcc] [sf Hsf].
  destruct (base_profile_ok rows Hr) as (p & Hp & Hlen).
  unfold generate_pressure_field. rewrite Hp. bind_step.
  rewrite (getitem_Some _ _ _ Hab). bind_step.
  rewrite expand_ok by done. bind_step.
  rewrite (getitem_Some _ _ _ Hcc). bind_step.
  rewrite (getitem_Some _ _ _ Hsf). bind_step.
  set (q := _apply_arch_bias rows p ab).
  set (g0 := (fun v => replicate (Z.to_nat cols) v) <$> q).
  assert (Hg0 : g0 = replicate (length q) []).
  { unfold g0. destruct Hz as [-> | ->].
    - assert (q = []) as ->; [|done].
      apply nil_length_inv. unfold q. rewrite arch_bias_length, Hlen. done.
    - change (Z.to_nat 0) with 0%nat. cbn [replicate].
      generalize q. intros l. induction l as [|x l IH]; [done|].
      cbn. by rewrite <- IH. }
  assert (Hshaped : _apply_contact_capacity g0 cc = Some g0).
  { unfold _apply_contact_capacity. cbn zeta.
    transitivity (Some ((fun row : list R => row) <$> g0));
      [|f_equal; apply (list_fmap_id g0)].
    apply mapM_total. rewrite Hg0. apply Forall_replicate. done. }
  rewrite Hshaped. cbn [fmap option_fmap option_map].
  eexists. split; [reflexivity|].
  rewrite smooth_grid_passes. apply (passes_no_cells 0).
  - rewrite Hg0. unfold rect. apply Forall_replicate. done.
  - unfold cells. rewrite Hg0. apply concat_empty_rows.
Qed.



Lemma generate_zero_rows :
  generate_pressure_field 0 4 example_params = Ok (Some []).
Proof.
  destruct example_params_lookup as (Hab & Hcc & Hsf).
  destruct (base_profile_ok 0) as (p & Hp & Hlen); [lia|].
  apply nil_length_inv in Hlen. subst p.
  unfold generate_pressure_field. rewrite Hp. bind_step.
  rewrite (getitem_Some _ _ _ Hab). bind_step.
  assert (_apply_arch_bias 0 [] 0.1 = []) as ->
      by (apply nil_length_inv, arch_bias_length).
  rewrite expand_ok by lia. bind_step.
  rewrite (getitem_Some _ _ _ Hcc). bind_step.
  rewrite (getitem_Some _ _ _ Hsf). bind_step.
  change (Ok (Some (_smooth_grid_bounded [] 1.0 default_iterations))
          = Ok (Some ([] : grid))).
  by rewrite smooth_grid_passes, passes_nil.
Qed.


(** The result depends on the parameter record only through its three
    fields. *)
Lemma generate_reads_three_fields (rows cols : Z) (p q : gmap string R) :
  p !! "arch_bias" = q !! "arch_bias" ->
  p !! "contact_capacity" = q !! "contact_capacity" ->
  p !! "stiffness_factor" = q !! "stiffness_factor" ->
  generate_pressure_field rows cols p = generate_pressure_field rows cols q.
Proof.
  intros H1 H2 H3. unfold generate_pressure_field, getitem.
  by rewrite H1, H2, H3.
Qed.



(** ** Worked values *)

(** Closes an equation between a mean of neighbours and a number. *)
Ltac mean_value :=
  unfold mean; rewrite neighbors_sum, neighbors_length by lia;
  unfold neighborhood_sum, averaged, cell;
  repeat case_decide; try lia; cbn; field.

Example smooth_pass_2x2 :
  smooth_pass 2 2 [[0; 3]; [6; 9]] = [[3; 4]; [5; 6]].
Proof.
  pose proof (smooth_pass_imap 2 [[0; 3]; [6; 9]]) as E.
  cbn [length] in E. rewrite E by repeat constructor.
  cbn [imap compose]. repeat f_equal; mean_value.
Qed.

Example py_int_values :
  py_int 3.75 = 3%Z /\ py_int (-0.3) = 0%Z /\ py_int (-2.5) = (-2)%Z.
Proof.
  split; [apply py_int_eq; [lia|lra]|].
  split.
  - destruct (py_int_neg (-0.3)) as [-> _]; [lra|]. apply Zceil_eq. lra.
  - destruct (py_int_neg (-2.5)) as [-> _]; [lra|]. apply Zceil_eq. lra.
Qed.

Example linspace_three : linspace 0 1 3 = Ok [0; 0.5; 1].
Proof.
  unfold linspace. change (Z.to_nat 3) with 3%nat.
  change (Z.to_nat (3 - 1)) with 2%nat. change (3 - 1)%Z with 2%Z.
  change (3 <? 0)%Z with false. change (0 <? 2)%Z with true.
  change (1 <? 3)%Z with true. cbv iota.
  destruct (Req_dec_T ((1 - 0) / 2) 0) as [H|_]; [lra|].
  cbn. repeat f_equal; lra.
Qed.

Example arch_window_ten_rows :
  _apply_arch_bias 10 [9; 8; 7; 6; 5; 4; 3; 2; 1; 0] 0.5
  = [9; 8; 7; 6.5; 5.5; 4.5; 3; 2; 1; 0].
Proof.
  unfold _apply_arch_bias, slice_iadd.
  rewrite (py_int_eq (0.35 * 10) 3), (py_int_eq (0.65 * 10) 6) by (lia || lra).
  cbn [length].
  change (slice_bound (Z.of_nat 10) 3) with 3%nat.
  change (slice_bound (Z.of_nat 10) 6) with 6%nat.
  cbn. repeat f_equal; lra.
Qed.

Example np_power_values :
  np_power 4 0.5 = Some (Rpower 4 0.5)
  /\ np_power 0 0.7 = Some 0
  /\ np_power (-2) 2 = Some 4
  /\ np_power (-1) 0.5 = None.
Proof.
  unfold np_power. repeat split.
  - destruct (Rlt_dec 0 4); [done|lra].
  - destruct (Rlt_dec 0 0); [lra|]. destruct (Req_dec_T 0 0); [|lra].
    destruct (Rlt_dec 0 0.7); [done|lra].
  - destruct (Rlt_dec 0 (-2)); [lra|]. destruct (Req_dec_T (-2) 0); [lra|].
    rewrite (ZfloorZ 2). destruct (Req_dec_T 2 2); [|lra].
    f_equal. unfold powerRZ. change (Pos.to_nat 2) with 2%nat. cbn [pow]. lra.
  - destruct (Rlt_dec 0 (-1)); [lra|]. destruct (Req_dec_T (-1) 0); [lra|].
    assert (Zfloor 0.5 = 0%Z) as -> by (apply Zfloor_eq; lra).
    destruct (Req_dec_T 0.5 0); [lra|done].
Qed.

(** * Further properties of the stages *)

(** ** Grids as tables of cells *)

Lemma cell_default (g : grid) (i j : nat) (row : list R) :
  g !! i = Some row -> (j < length row)%nat ->
  row !! j = Some (cell g i j).
Proof.
  intros Hi Hj. destruct (lookup_lt_is_Some_2 row j Hj) as [v Hv].
  by rewrite (cell_lookup g i j row v Hi Hv).
Qed.

(** Two grids of the same shape with the same cells are equal. *)
Lemma grid_ext (cols : nat) (g h : grid) :
  rect cols g -> rect cols h -> length g = length h ->
  (forall i j, (i < length g)%nat -> (j < cols)%nat -> cell g i j = cell h i j) ->
  g = h.
Proof.
  intros Hg Hh Hlen Hc. apply list_eq. intros i.
  destruct (decide (i < length g)%nat) as [Hi|Hi].
  - destruct (lookup_lt_is_Some_2 g i Hi) as [r1 H1].
    destruct (lookup_lt_is_Some_2 h i) as [r2 H2]; [lia|].
    rewrite H1, H2. f_equal.
    pose proof (rect_lookup _ _ _ _ Hg H1) as L1.
    pose proof (rect_lookup _ _ _ _ Hh H2) as L2.
    apply list_eq. intros j.
    destruct (decide (j < cols)%nat) as [Hj|Hj].
    + rewrite (cell_default g i j r1 H1), (cell_default h i j r2 H2) by lia.
      f_equal. by apply Hc.
    + by rewrite !lookup_ge_None_2 by lia.
  - by rewrite !lookup_ge_None_2 by lia.
Qed.

Lemma cells_lookup (g : grid) (c : R) :
  c ∈ cells g <-> exists i j row, g !! i = Some row /\ row !! j = Some c.
Proof.
  unfold cells. rewrite list_elem_of_In, in_concat. split.
  - intros (row & Hrow & Hc).
    apply list_elem_of_In, list_elem_of_lookup in Hrow as [i Hi].
    apply list_elem_of_In, list_elem_of_lookup in Hc as [j Hj]. eauto.
  - intros (i & j & row & Hi & Hj). exists row.
    split; apply list_elem_of_In, list_elem_of_lookup; eauto.
Qed.

Lemma cells_fmap (h : R -> R) (g : grid) (c' : R) :
  c' ∈ cells ((fun row : list R => h <$> row) <$> g) ->
  exists c, c ∈ cells g /\ c' = h c.
Proof.
  rewrite cells_lookup. intros (i & j & row' & Hi & Hj).
  rewrite list_lookup_fmap in Hi.
  destruct (g !! i) as [row|] eqn:Hrow; [|done]. injection Hi as <-.
  rewrite list_lookup_fmap in Hj.
  destruct (row !! j) as [c|] eqn:Hc; [|done]. injection Hj as <-.
  exists c. split; [|done]. apply cells_lookup. eauto.
Qed.

(** ** Width expansion *)

(** X1. For a column count that is not negative, [_expand_to_grid] returns
    a grid with one row per profile entry and [GRID_COLS] cells per row,
    and every cell of row [i] is the profile entry [i]: the columns are
    copies of the profile. *)
Theorem expand_grid_copies_profile (cols : Z) (profile : list R) :
  (0 <= cols)%Z ->
  exists g : grid,
    _expand_to_grid cols profile = Ok g
    /\ length g = length profile
    /\ rect (Z.to_nat cols) g
    /\ (forall (i j : nat) (v : R),
           profile !! i = Some v -> (j < Z.to_nat cols)%nat -> cell g i j = v).
Proof.
  intros Hc. eexists. split; [by apply expand_ok|].
  split; [by rewrite length_fmap|]. split.
  - unfold rect. apply Forall_fmap, Forall_forall. intros v _.
    apply length_replicate.
  - intros i j v Hv Hj.
    apply (cell_lookup _ i j (replicate (Z.to_nat cols) v)).
    + by rewrite list_lookup_fmap, Hv.
    + by apply lookup_replicate_2.
Qed.

Lemma expand_grid_copies_profile_witness :
  (0 <= 4)%Z
  /\ exists g : grid,
      _expand_to_grid 4 [1; 2] = Ok g
      /\ length g = length [1; 2]
      /\ rect (Z.to_nat 4) g
      /\ (forall (i j : nat) (v : R),
             [1; 2] !! i = Some v -> (j < Z.to_nat 4)%nat -> cell g i j = v).
Proof.
  split; [lia|]. apply (expand_grid_copies_profile 4 [1; 2]). lia.
Defined.

(** ** Range of the base profile *)

Lemma base_profile_one : _base_longitudinal_profile 1 = Ok [1.2].
Proof.
  unfold _base_longitudinal_profile, linspace.
  change (0 <? 1 - 1)%Z with false. change (Z.to_nat 1) with 1%nat.
  cbn. do 2 f_equal. lra.
Qed.

Lemma base_profile_range (rows : Z) (p : list R) (v : R) :
  _base_longitudinal_profile rows = Ok p -> v ∈ p -> 0.2 <= v <= 1.2.
Proof.
  intros Hp Hv.
  destruct (Z.lt_ge_cases rows 0) as [Hneg|Hnn].
  { by rewrite base_profile_negative in Hp. }
  destruct (base_profile_ok rows Hnn) as (p' & Hp' & Hlen).
  rewrite Hp in Hp'. injection Hp' as <-.
  apply list_elem_of_lookup in Hv as [i Hi].
  pose proof (lookup_lt_Some _ _ _ Hi) as Hlt. rewrite Hlen in Hlt.
  destruct (decide (rows = 1%Z)) as [->|Hne].
  - rewrite base_profile_one in Hp. injection Hp as <-.
    destruct i; [|done]. injection Hi as <-. lra.
  - assert (H1 : (1 < rows)%Z) by lia.
    rewrite (base_profile_lookup rows p i H1 Hp Hlt) in Hi. injection Hi as <-.
    assert (Hd : 0 < IZR (rows - 1)) by (apply IZR_lt; lia).
    assert (Hi0 : 0 <= INR i) by apply pos_INR.
    assert (Hi1 : INR i <= IZR (rows - 1)).
    { rewrite INR_IZR_INZ. apply IZR_le. lia. }
    assert (0 <= INR i / IZR (rows - 1) <= 1).
    { split.
      - apply Rmult_le_pos; [done|]. left. by apply Rinv_0_lt_compat.
      - apply Rmult_le_reg_r with (IZR (rows - 1)); [done|].
        replace (INR i / IZR (rows - 1) * IZR (rows - 1)) with (INR i)
          by (field; lra).
        lra. }
    lra.
Qed.



(** ** The arch bias as a shift of the window *)

Lemma arch_bias_empty_window (rows : Z) (profile : list R) (arch_bias : R) :
  Z.of_nat (length profile) = rows ->
  (Zfloor (0.65 * IZR rows) <= Zfloor (0.35 * IZR rows))%Z ->
  _apply_arch_bias rows profile arch_bias = profile.
Proof.
  intros Hlen Hw. unfold _apply_arch_bias.
  destruct (mid_window rows) as (-> & -> & [H0 H1] & H2); [lia|].
  apply slice_iadd_empty; lia.
Qed.

(** Two profiles of the length of [profile] agree when they agree at every
    index of [profile]. *)
Lemma profile_ext (profile out1 out2 : list R) :
  length out1 = length profile -> length out2 = length profile ->
  (forall i v, profile !! i = Some v -> out1 !! i = out2 !! i) ->
  out1 = out2.
Proof.
  intros L1 L2 H. apply list_eq. intros i.
  destruct (profile !! i) as [v|] eqn:Hv; [by apply (H i v)|].
  apply lookup_ge_None in Hv. by rewrite !lookup_ge_None_2 by lia.
Qed.



Lemma mid_window_small :
  Zfloor (0.35 * 0) = 0%Z /\ Zfloor (0.65 * 0) = 0%Z
  /\ Zfloor (0.35 * 1) = 0%Z /\ Zfloor (0.65 * 1) = 0%Z
  /\ Zfloor (0.35 * 2) = 0%Z /\ Zfloor (0.65 * 2) = 1%Z
  /\ Zfloor (0.35 * 3) = 1%Z /\ Zfloor (0.65 * 3) = 1%Z.
Proof. repeat split; apply Zfloor_eq; lra. Qed.

Lemma mid_window_wide (rows : Z) :
  (4 <= rows)%Z ->
  (Zfloor (0.35 * IZR rows) < Zfloor (0.65 * IZR rows))%Z.
Proof.
  intros Hr. apply IZR_le in Hr.
  pose proof (Zfloor_bound (0.35 * IZR rows)) as [Hlo _].
  assert (H : (Zfloor (0.35 * IZR rows) + 1 <= Zfloor (0.65 * IZR rows))%Z).
  { apply Zfloor_lub. rewrite plus_IZR. lra. }
  lia.
Qed.

(** X4. The midfoot window [[int(0.35 * rows), int(0.65 * rows))] is empty
    exactly for 0, 1 and 3 rows. On a profile of such a length the arch
    bias changes nothing, whatever its value; on a profile of 2 rows or of
    at least 4 rows the entry at index [int(0.35 * rows)] is shifted by
    the bias. *)
Theorem arch_window_empty_rows (rows : Z) (profile : list R) (arch_bias : R) :
  Z.of_nat (length profile) = rows ->
  ((py_int (0.65 * IZR rows) <= py_int (0.35 * IZR rows))%Z
   <-> (rows = 0 \/ rows = 1 \/ rows = 3)%Z)
  /\ ((rows = 0 \/ rows = 1 \/ rows = 3)%Z ->
      _apply_arch_bias rows profile arch_bias = profile)
  /\ ((rows = 2 \/ 4 <= rows)%Z ->
      exists v : R,
        profile !! Z.to_nat (py_int (0.35 * IZR rows)) = Some v
        /\ _apply_arch_bias rows profile arch_bias
             !! Z.to_nat (py_int (0.35 * IZR rows))
           = Some (v + arch_bias)).
Proof.
  intros Hlen.
  destruct (mid_window rows) as (-> & -> & [H0 H1] & H2); [lia|].
  destruct mid_window_small as (A0 & B0 & A1 & B1 & A2 & B2 & A3 & B3).
  assert (Hiff : (Zfloor (0.65 * IZR rows) <= Zfloor (0.35 * IZR rows))%Z
                 <-> (rows = 0 \/ rows = 1 \/ rows = 3)%Z).
  { split.
    - intros Hle.
      destruct (Z.lt_ge_cases rows 4) as [Hsmall|Hbig].
      + assert (rows = 0 \/ rows = 1 \/ rows = 2 \/ rows = 3)%Z
          as [-> | [-> | [-> | ->]]] by lia; lia.
      + pose proof (mid_window_wide rows Hbig). lia.
    - intros [-> | [-> | ->]];
        [rewrite A0, B0|rewrite A1, B1|rewrite A3, B3]; lia. }
  split; [done|]. split.
  - intros Hsmall. apply arch_bias_empty_window; [done|]. by apply Hiff.
  - intros Hwide.
    assert (Hlt : (Zfloor (0.35 * IZR rows) < Zfloor (0.65 * IZR rows))%Z).
    { destruct Hwide as [->|Hbig]; [rewrite A2, B2; lia|].
      by apply mid_window_wide. }
    destruct (lookup_lt_is_Some_2 profile (Z.to_nat (Zfloor (0.35 * IZR rows))))
      as [v Hv]; [lia|].
    exists v. split; [done|].
    rewrite (arch_bias_lookup rows profile arch_bias _ v Hlen Hv).
    case_decide; [done|lia].
Qed.

Lemma arch_window_empty_rows_witness :
  let profile := [1.2; 0.7; 0.2] in
  ((py_int (0.65 * IZR 3) <= py_int (0.35 * IZR 3))%Z
   <-> (3 = 0 \/ 3 = 1 \/ 3 = 3)%Z)
  /\ ((3 = 0 \/ 3 = 1 \/ 3 = 3)%Z -> _apply_arch_bias 3 profile 0.1 = profile)
  /\ ((3 = 2 \/ 4 <= 3)%Z ->
      exists v : R,
        profile !! Z.to_nat (py_int (0.35 * IZR 3)) = Some v
        /\ _apply_arch_bias 3 profile 0.1 !! Z.to_nat (py_int (0.35 * IZR 3))
           = Some (v + 0.1)).
Proof.
  apply (arch_window_empty_rows 3 [1.2; 0.7; 0.2] 0.1). reflexivity.
Defined.

(** ** Particular exponents of the capacity shaper *)

Lemma nonneg_power_half (c : R) : 0 <= c -> nonneg_power c 0.5 = sqrt c.
Proof.
  intros Hc. unfold nonneg_power. destruct (Req_dec_T c 0) as [->|Hne].
  - by rewrite sqrt_0.
  - replace 0.5 with (/ 2) by lra. apply Rpower_sqrt. lra.
Qed.

Lemma nonneg_power_unit_exponent (c : R) : 0 <= c -> nonneg_power c 1 = c.
Proof.
  intros Hc. unfold nonneg_power. destruct (Req_dec_T c 0) as [->|Hne]; [done|].
  apply Rpower_1. lra.
Qed.

Lemma nonneg_power_of_one (e : R) : nonneg_power 1 e = 1.
Proof.
  unfold nonneg_power. destruct (Req_dec_T 1 0) as [H|_]; [lra|].
  unfold Rpower. by rewrite ln_1, Rmult_0_r, exp_0.
Qed.

Lemma nonneg_power_nonneg (c e : R) : 0 <= nonneg_power c e.
Proof.
  unfold nonneg_power. destruct (Req_dec_T c 0); [lra|].
  left. apply exp_pos.
Qed.

(** The shaper with a known cell function on a grid without negative
    cells. *)
Lemma contact_capacity_as (h : R -> R) (g : grid) (capacity : R) :
  (forall c, c ∈ cells g -> 0 <= c) ->
  (forall c, 0 <= c -> nonneg_power c (capacity_exponent capacity) = h c) ->
  _apply_contact_capacity g capacity
  = Some ((fun row : list R => h <$> row) <$> g).
Proof.
  intros Hg Hh. rewrite contact_capacity_nonneg by done. f_equal.
  apply Forall_fmap_ext_1.
  eapply Forall_impl; [apply (cells_Forall _ g Hg)|].
  intros row Hrow. cbn in *. apply Forall_fmap_ext_1.
  eapply Forall_impl; [exact Hrow|]. intros c Hc. cbn in *. by apply Hh.
Qed.

(** X5. With a contact capacity of 1.0 or more the shaper takes the
    square root of every cell of a grid without negative cells. *)
Theorem capacity_one_or_more_is_sqrt (g : grid) (capacity : R) :
  1.0 <= capacity ->
  (forall c, c ∈ cells g -> 0 <= c) ->
  _apply_contact_capacity g capacity
  = Some ((fun row : list R => sqrt <$> row) <$> g).
Proof.
  intros Hcap Hg. apply contact_capacity_as; [done|]. intros c Hc.
  destruct (capacity_exponent_floor capacity) as [_ Hhalf].
  rewrite (proj2 Hhalf Hcap). by apply nonneg_power_half.
Qed.

Lemma capacity_one_or_more_is_sqrt_witness :
  1.0 <= 1.25
  /\ _apply_contact_capacity [[4; 9]; [0; 1]] 1.25
     = Some ((fun row : list R => sqrt <$> row) <$> [[4; 9]; [0; 1]]).
Proof.
  split; [lra|].
  apply (capacity_one_or_more_is_sqrt [[4; 9]; [0; 1]] 1.25); [lra|].
  intros c Hc. unfold cells in Hc. cbn in Hc.
  repeat (apply elem_of_cons in Hc as [->|Hc]; [lra|]).
  by apply elem_of_nil in Hc.
Defined.

(** X6. With a contact capacity of 0.5 the exponent is 1 and the shaper
    returns a grid without negative cells unchanged. *)
Theorem capacity_half_is_identity (g : grid) :
  (forall c, c ∈ cells g -> 0 <= c) ->
  _apply_contact_capacity g 0.5 = Some g.
Proof.
  intros Hg. rewrite (contact_capacity_as (fun c => c)); [|done|].
  - f_equal. rewrite <- (list_fmap_id g) at 2. apply Forall_fmap_ext_1.
    apply Forall_forall. intros row _. apply list_fmap_id.
  - intros c Hc.
    assert (capacity_exponent 0.5 = 1) as ->.
    { unfold capacity_exponent, py_max.
      destruct (Rlt_dec 0.5 (1.5 - 0.5)); lra. }
    by apply nonneg_power_unit_exponent.
Qed.

Lemma capacity_half_is_identity_witness :
  _apply_contact_capacity [[4; 9]; [0; 1]] 0.5 = Some [[4; 9]; [0; 1]].
Proof.
  apply (capacity_half_is_identity [[4; 9]; [0; 1]]).
  intros c Hc. unfold cells in Hc. cbn in Hc.
  repeat (apply elem_of_cons in Hc as [->|Hc]; [lra|]).
  by apply elem_of_nil in Hc.
Defined.

(** X7. Whatever the contact capacity, the shaper keeps 0 and 1 fixed and
    does not cross 1: on a grid without negative cells it returns a grid
    of the same number of rows without negative cells, whose cells are at
    most 1 when those of the input are, and at least 1 when those of the
    input are. *)
Theorem shaper_does_not_cross_one (g : grid) (capacity : R) :
  (forall c, c ∈ cells g -> 0 <= c) ->
  exists g' : grid,
    _apply_contact_capacity g capacity = Some g'
    /\ length g' = length g
    /\ (forall c', c' ∈ cells g' -> 0 <= c')
    /\ ((forall c, c ∈ cells g -> c <= 1) -> forall c', c' ∈ cells g' -> c' <= 1)
    /\ ((forall c, c ∈ cells g -> 1 <= c) -> forall c', c' ∈ cells g' -> 1 <= c').
Proof.
  intros Hg. eexists. split; [by apply contact_capacity_nonneg|].
  destruct (capacity_exponent_floor capacity) as [He _].
  split; [by rewrite length_fmap|]. split; [|split].
  - intros c' Hc'. apply cells_fmap in Hc' as (c & _ & ->).
    apply nonneg_power_nonneg.
  - intros Hle c' Hc'. apply cells_fmap in Hc' as (c & Hc & ->).
    rewrite <- (nonneg_power_of_one (capacity_exponent capacity)).
    apply nonneg_power_monotone; [lra|by apply Hg|by apply Hle].
  - intros Hge c' Hc'. apply cells_fmap in Hc' as (c & Hc & ->).
    rewrite <- (nonneg_power_of_one (capacity_exponent capacity)) at 1.
    apply nonneg_power_monotone; [lra|lra|by apply Hge].
Qed.

Lemma shaper_does_not_cross_one_witness :
  let g := [[0.25; 1]; [0; 0.5]] in
  exists g' : grid,
    _apply_contact_capacity g 0.8 = Some g'
    /\ length g' = length g
    /\ (forall c', c' ∈ cells g' -> 0 <= c')
    /\ ((forall c, c ∈ cells g -> c <= 1) -> forall c', c' ∈ cells g' -> c' <= 1)
    /\ ((forall c, c ∈ cells g -> 1 <= c) -> forall c', c' ∈ cells g' -> 1 <= c').
Proof.
  apply (shaper_does_not_cross_one [[0.25; 1]; [0; 0.5]] 0.8).
  intros c Hc. unfold cells in Hc. cbn in Hc.
  repeat (apply elem_of_cons in Hc as [->|Hc]; [lra|]).
  by apply elem_of_nil in Hc.
Defined.

Lemma np_power_negative_base (c e : R) :
  c < 0 -> e <> IZR (Zfloor e) -> np_power c e = None.
Proof.
  intros Hc He. unfold np_power.
  destruct (Rlt_dec 0 c); [lra|]. destruct (Req_dec_T c 0); [lra|].
  by destruct (Req_dec_T e (IZR (Zfloor e))).
Qed.

Lemma contact_capacity_negative (g : grid) (capacity c : R) :
  c ∈ cells g -> c < 0 ->
  capacity_exponent capacity <> IZR (Zfloor (capacity_exponent capacity)) ->
  _apply_contact_capacity g capacity = None.
Proof.
  intros Hc Hneg He. unfold _apply_contact_capacity. cbn zeta.
  apply cells_lookup in Hc as (i & j & row & Hi & Hj).
  apply mapM_None_2, Exists_exists. exists row.
  split; [apply list_elem_of_lookup; eauto|].
  apply mapM_None_2, Exists_exists. exists c.
  split; [apply list_elem_of_lookup; eauto|].
  by apply np_power_negative_base.
Qed.

Lemma exponent_half_not_integer (capacity : R) :
  1.0 <= capacity ->
  capacity_exponent capacity <> IZR (Zfloor (capacity_exponent capacity)).
Proof.
  intros Hcap. destruct (capacity_exponent_floor capacity) as [_ Hhalf].
  rewrite (proj2 Hhalf Hcap).
  assert (Zfloor 0.5 = 0%Z) as -> by (apply Zfloor_eq; lra). lra.
Qed.

(** X8. The shaper does not clamp: when the exponent is not an integer
    (as for every contact capacity of 1.0 or more, where it is 0.5), a
    single negative cell makes the result a grid that is not real-valued. *)
Theorem shaper_negative_cell_not_real (g : grid) (capacity c : R) :
  c ∈ cells g -> c < 0 ->
  (capacity_exponent capacity <> IZR (Zfloor (capacity_exponent capacity))
   -> _apply_contact_capacity g capacity = None)
  /\ (1.0 <= capacity -> _apply_contact_capacity g capacity = None).
Proof.
  intros Hc Hneg. split.
  - intros He. by apply (contact_capacity_negative g capacity c).
  - intros Hcap. apply (contact_capacity_negative g capacity c); [done..|].
    by apply exponent_half_not_integer.
Qed.

Lemma shaper_negative_cell_not_real_witness :
  -0.25 ∈ cells [[1; -0.25]] /\ -0.25 < 0
  /\ _apply_contact_capacity [[1; -0.25]] 1.0 = None.
Proof.
  assert (H : -0.25 ∈ cells [[1; -0.25]]).
  { unfold cells. cbn. apply elem_of_cons. right. apply elem_of_cons. by left. }
  split; [exact H|]. split; [lra|].
  apply (proj2 (shaper_negative_cell_not_real [[1; -0.25]] 1.0 (-0.25) H ltac:(lra))).
  lra.
Defined.

(** ** Shape, constants and affine maps under smoothing *)

Lemma smooth_grid_iter (cols : nat) (g : grid) (stiffness_factor : R) (iterations : Z) :
  rect cols g ->
  _smooth_grid_bounded g stiffness_factor iterations
  = Nat.iter (Z.to_nat (smooth_steps stiffness_factor iterations))
             (smooth_pass (length g) cols) g.
Proof. intros Hr. by rewrite smooth_grid_passes, (passes_rect_iter cols). Qed.

(** X9. The smoother keeps the shape: the result has the rows of the
    input and every row keeps its number of cells, for every stiffness
    factor and iteration budget. *)
Theorem smoothing_keeps_shape (g : grid) (cols : nat)
        (stiffness_factor : R) (iterations : Z) :
  rect cols g ->
  length (_smooth_grid_bounded g stiffness_factor iterations) = length g
  /\ rect cols (_smooth_grid_bounded g stiffness_factor iterations).
Proof.
  intros Hr. rewrite (smooth_grid_iter cols) by done.
  destruct (iter_pass_invariant (grid_min g) (grid_max g) cols g
              (Z.to_nat (smooth_steps stiffness_factor iterations)) Hr
              (grid_min_max_bounds g)) as (H1 & H2 & _).
  done.
Qed.

Lemma smoothing_keeps_shape_witness :
  length (_smooth_grid_bounded [[1; 2]; [3; 4]] 0 3) = length [[1; 2]; [3; 4]]
  /\ rect 2 (_smooth_grid_bounded [[1; 2]; [3; 4]] 0 3).
Proof.
  apply (smoothing_keeps_shape [[1; 2]; [3; 4]] 2 0 3). repeat constructor.
Defined.

Lemma constant_grid_eq (rows cols : nat) (v : R) (g : grid) :
  length g = rows -> rect cols g -> (forall c, c ∈ cells g -> c = v) ->
  g = replicate rows (replicate cols v).
Proof.
  intros Hlen Hr Hc. symmetry. apply replicate_as_Forall_2; [done|].
  apply Forall_forall. intros row Hrow.
  apply replicate_as_Forall_2.
  - unfold rect in Hr. rewrite Forall_forall in Hr. by apply Hr.
  - apply Forall_forall. intros c Hin. symmetry. apply Hc.
    apply list_elem_of_lookup in Hrow as [i Hi].
    apply list_elem_of_lookup in Hin as [j Hj].
    apply cells_lookup. eauto.
Qed.

Lemma constant_grid_cells (rows cols : nat) (v c : R) :
  c ∈ cells (replicate rows (replicate cols v)) -> c = v.
Proof.
  rewrite cells_lookup. intros (i & j & row & Hi & Hj).
  apply lookup_replicate_1 in Hi as [-> _].
  by apply lookup_replicate_1 in Hj as [-> _].
Qed.


Lemma affine_grid_length (a b : R) (g : grid) :
  length (affine_grid a b g) = length g.
Proof. unfold affine_grid. by rewrite length_fmap. Qed.

Lemma affine_grid_rect (a b : R) (cols : nat) (g : grid) :
  rect cols g -> rect cols (affine_grid a b g).
Proof.
  unfold rect, affine_grid. intros Hr. apply Forall_fmap.
  eapply Forall_impl; [exact Hr|]. intros row Hrow. cbn.
  by rewrite length_fmap.
Qed.

Lemma affine_grid_cell (a b : R) (cols : nat) (g : grid) (i j : nat) :
  rect cols g -> (i < length g)%nat -> (j < cols)%nat ->
  cell (affine_grid a b g) i j = a * cell g i j + b.
Proof.
  intros Hr Hi Hj. destruct (lookup_lt_is_Some_2 g i Hi) as [row Hrow].
  pose proof (rect_lookup _ _ _ _ Hr Hrow) as Hlen.
  pose proof (cell_default g i j row Hrow ltac:(lia)) as Hc.
  apply (cell_lookup _ i j ((fun c => a * c + b) <$> row)).
  - unfold affine_grid. by rewrite list_lookup_fmap, Hrow.
  - by rewrite list_lookup_fmap, Hc.
Qed.

Lemma averaged_positive (rows cols i j : nat) : 0 < INR (averaged rows cols i j).
Proof. apply lt_0_INR. unfold averaged. lia. Qed.

Lemma neighborhood_sum_affine (a b : R) (cols : nat) (g : grid) (i j : nat) :
  rect cols g -> (i < length g)%nat -> (j < cols)%nat ->
  neighborhood_sum (affine_grid a b g) (length g) cols i j
  = a * neighborhood_sum g (length g) cols i j
    + b * INR (averaged (length g) cols i j).
Proof.
  intros Hr Hi Hj. unfold neighborhood_sum, averaged.
  repeat case_decide;
    rewrite ?(affine_grid_cell a b cols) by (done || lia);
    rewrite !plus_INR; cbn [INR]; lra.
Qed.

Lemma smooth_pass_affine (a b : R) (cols : nat) (g : grid) :
  rect cols g ->
  smooth_pass (length g) cols (affine_grid a b g)
  = affine_grid a b (smooth_pass (length g) cols g).
Proof.
  intros Hr.
  pose proof (affine_grid_rect a b cols g Hr) as Hra.
  pose proof (affine_grid_length a b g) as Hla.
  pose proof (smooth_pass_rect cols g Hr) as Hrs.
  pose proof (smooth_pass_length cols g Hr) as Hls.
  apply (grid_ext cols).
  - rewrite <- Hla. by apply smooth_pass_rect.
  - by apply affine_grid_rect.
  - rewrite affine_grid_length, Hls, <- Hla. by apply (smooth_pass_length cols).
  - intros i j Hi Hj.
    assert (Hi' : (i < length g)%nat).
    { rewrite <- Hla in Hi at 1.
      rewrite (smooth_pass_length cols _ Hra) in Hi. lia. }
    rewrite (affine_grid_cell a b cols) by (done || lia).
    rewrite (smooth_pass_cell cols g i j Hr Hi' Hj).
    rewrite <- Hla at 1.
    rewrite (smooth_pass_cell cols _ i j Hra) by (done || lia).
    rewrite Hla. unfold mean.
    rewrite !neighbors_sum, !neighbors_length by done.
    rewrite neighborhood_sum_affine by done.
    pose proof (averaged_positive (length g) cols i j). field. lra.
Qed.



(** ** The default budget and the pipeline *)



Lemma steps_above_two_thirds (stiffness_factor : R) :
  2 / 3 < stiffness_factor ->
  (smooth_steps stiffness_factor default_iterations <= 0)%Z.
Proof.
  intros H. unfold smooth_steps, default_iterations.
  destruct (Rle_dec 0 ((1.0 - stiffness_factor) * 3)) as [Hp|Hn].
  - rewrite (py_int_eq _ 0); [lia|lia|lra].
  - by destruct (py_int_neg ((1.0 - stiffness_factor) * 3)) as [-> ?]; [lra|].
Qed.



(** Every entry of the biased profile is an entry of the base profile,
    shifted or not. *)
Lemma biased_profile_entry (rows : Z) (p : list R) (arch_bias c : R) :
  _base_longitudinal_profile rows = Ok p -> length p = Z.to_nat rows ->
  c ∈ _apply_arch_bias rows p arch_bias ->
  exists v, 0.2 <= v <= 1.2 /\ (c = v \/ c = v + arch_bias).
Proof.
  intros Hp Hlen Hc. apply list_elem_of_lookup in Hc as [i Hi].
  pose proof (lookup_lt_Some _ _ _ Hi) as Hlt.
  rewrite arch_bias_length in Hlt.
  destruct (lookup_lt_is_Some_2 p i Hlt) as [v Hv].
  assert (Hrows : Z.of_nat (length p) = rows).
  { destruct (Z.lt_ge_cases rows 0) as [Hneg|Hnn].
    - by rewrite base_profile_negative in Hp.
    - lia. }
  rewrite (arch_bias_lookup rows p arch_bias i v Hrows Hv) in Hi.
  injection Hi as <-. exists v. split.
  - apply (base_profile_range rows p); [done|].
    apply list_elem_of_lookup. eauto.
  - case_decide; auto.
Qed.





(** X16. The pipeline reads the parameter record only at its three
    fields: adding or changing any other key leaves the outcome
    unchanged. *)
Theorem generate_ignores_other_keys (rows cols : Z) (params : gmap string R)
        (key : string) (value : R) :
  key <> "arch_bias" -> key <> "contact_capacity" -> key <> "stiffness_factor" ->
  generate_pressure_field rows cols (<[key := value]> params)
  = generate_pressure_field rows cols params.
Proof.
  intros H1 H2 H3.
  apply generate_reads_three_fields; by rewrite lookup_insert_ne.
Qed.

Lemma generate_ignores_other_keys_witness :
  generate_pressure_field 10 4 (<["heel_drop" := 8]> example_params)
  = generate_pressure_field 10 4 example_params.
Proof.
  apply (generate_ignores_other_keys 10 4 example_params "heel_drop" 8); done.
Defined.



Lemma smooth_steps_zero_stiffness (iterations : Z) :
  (0 <= iterations)%Z -> smooth_steps 0 iterations = iterations.
Proof.
  intros H. unfold smooth_steps. apply py_int_eq; [done|].
  apply IZR_le in H. lra.
Qed.

(** X18. Smoothing composes by adding budgets: at a stiffness factor of 0,
    smoothing with budget [n] and then with budget [m] is smoothing once
    with budget [n + m]. *)
Theorem smoothing_budgets_add (g : grid) (cols : nat) (n m : Z) :
  rect cols g -> (0 <= n)%Z -> (0 <= m)%Z ->
  _smooth_grid_bounded (_smooth_grid_bounded g 0 n) 0 m
  = _smooth_grid_bounded g 0 (n + m).
Proof.
  intros Hr Hn Hm.
  destruct (iter_pass_invariant (grid_min g) (grid_max g) cols g
              (Z.to_nat n) Hr (grid_min_max_bounds g)) as (H1 & H2 & _).
  rewrite (smooth_grid_iter cols g 0 n Hr), (smooth_grid_iter cols g 0 (n + m) Hr).
  rewrite !smooth_steps_zero_stiffness by lia.
  rewrite (smooth_grid_iter cols _ 0 m H1), H2.
  rewrite smooth_steps_zero_stiffness by lia.
  rewrite Z2Nat.inj_add, Nat.add_comm by lia. symmetry. apply Nat.iter_add.
Qed.

Lemma smoothing_budgets_add_witness :
  _smooth_grid_bounded (_smooth_grid_bounded [[1; 2]; [3; 4]] 0 1) 0 2
  = _smooth_grid_bounded [[1; 2]; [3; 4]] 0 (1 + 2).
Proof.
  apply (smoothing_budgets_add [[1; 2]; [3; 4]] 2 1 2); [|lia|lia].
  repeat constructor.
Defined.
